(** * The Vulkan surface pool of the Fuchsia Flutter runner

    A shallow embedding of
    [shell/platform/fuchsia/flutter/vulkan_surface_pool.cc] and the
    properties of its cache: exact-match reuse, recycling under the
    capacity bound, ageing, and the two shrink passes.

    Every [std::unique_ptr<VulkanSurface>] owns its object alone, so an
    owned surface is carried by value; a possibly null pointer is an
    [option].  The vector of available surfaces is a [list] in vector
    order and the unordered map of pending surfaces a [gmap] from
    [uintptr_t] keys.  The tracing and logging macros ([TRACE_EVENT*],
    [TRACE_COUNTER], [FML_DLOG]) write to the trace and log sinks and
    leave the pool alone; they are not part of the state. *)

From stdpp Require Import base numbers option list gmap.

Open Scope Z_scope.

(** ** Data *)

(** [SkISize]: integer width and height, compared field by field. *)
Record SkISize := mkSize { width : Z; height : Z }.

Global Instance SkISize_eq_dec : EqDecision SkISize.
Proof. solve_decision. Defined.

Definition SkISize_eq (a b : SkISize) : bool :=
  (width a =? width b) && (height a =? height b).

(** Modelled from the spec: the [VulkanSurface] class is declared outside
    this file; the pool only sees it through the accessors below.  A
    surface has a size, the identifier it was created with, a validity
    flag, an age, the two derived predicates "oversized" and "stable size
    history", an allocation size, and the outcome of flushing its session
    events.  [self] is the address of the object, the value
    [unique_ptr::get] returns for the pointer that owns it. *)
Record VulkanSurface := mkSurface {
  self : Z;
  buffer_id : Z;
  size_ : SkISize;
  valid_ : bool;
  age_ : Z;
  oversized_ : bool;
  stable_size_history_ : bool;
  allocation_size_ : Z;
  flush_ok_ : bool
}.

Global Instance VulkanSurface_eq_dec : EqDecision VulkanSurface.
Proof. solve_decision. Defined.

Definition IsValid (s : VulkanSurface) : bool := valid_ s.
Definition GetSize (s : VulkanSurface) : SkISize := size_ s.
Definition GetAllocationSize (s : VulkanSurface) : Z := allocation_size_ s.
Definition IsOversized (s : VulkanSurface) : bool := oversized_ s.
Definition HasStableSizeHistory (s : VulkanSurface) : bool :=
  stable_size_history_ s.
Definition FlushSessionAcquireAndReleaseEvents (s : VulkanSurface) : bool :=
  flush_ok_ s.

(** Modelled from the spec: [AdvanceAndGetAge] advances the age of the
    surface by one unit and returns the new age. *)
Definition AdvanceAndGetAge (s : VulkanSurface) : Z * VulkanSurface :=
  let s' := mkSurface (self s) (buffer_id s) (size_ s) (valid_ s)
                      (age_ s + 1) (oversized_ s) (stable_size_history_ s)
                      (allocation_size_ s) (flush_ok_ s) in
  (age_ s', s').

(** What the platform decides when a surface is constructed: where the
    object lives and how its allocation turned out. *)
Record Backing := mkBacking {
  b_self : Z;
  b_valid : bool;
  b_oversized : bool;
  b_stable : bool;
  b_allocation_size : Z;
  b_flush_ok : bool
}.

(** The declarations the pool takes from its header and from the
    platform: the two capacity constants, the number of values of the
    types of [buffer_id_] and of the trace counters (their increments wrap
    around), and the outcome of a surface construction for a size and an
    identifier.  Successive constructions carry successive identifiers, so
    the outcome may differ from one call to the next. *)
Class PoolEnv := mkEnv {
  kMaxSurfaces : Z;
  kMaxSurfaceAge : Z;
  buffer_id_modulus : Z;
  size_t_modulus : Z;
  allocate : SkISize -> Z -> Backing
}.

(** The pool: the members the functions of the file read and write.
    [writes_finished_] records, in call order, the key bound into each
    [RecyclePendingSurface] closure handed to [SignalWritesFinished]. *)
Record VulkanSurfacePool := mkPool {
  available_surfaces_ : list VulkanSurface;
  pending_surfaces_ : gmap Z VulkanSurface;
  buffer_id_ : Z;
  trace_surfaces_created_ : Z;
  trace_surfaces_reused_ : Z;
  writes_finished_ : list Z
}.

Definition set_available (l : list VulkanSurface) (p : VulkanSurfacePool) :=
  mkPool l (pending_surfaces_ p) (buffer_id_ p) (trace_surfaces_created_ p)
         (trace_surfaces_reused_ p) (writes_finished_ p).

Definition set_pending (m : gmap Z VulkanSurface) (p : VulkanSurfacePool) :=
  mkPool (available_surfaces_ p) m (buffer_id_ p) (trace_surfaces_created_ p)
         (trace_surfaces_reused_ p) (writes_finished_ p).

Definition set_buffer_id (n : Z) (p : VulkanSurfacePool) :=
  mkPool (available_surfaces_ p) (pending_surfaces_ p) n
         (trace_surfaces_created_ p) (trace_surfaces_reused_ p)
         (writes_finished_ p).

Definition set_trace (created reused : Z) (p : VulkanSurfacePool) :=
  mkPool (available_surfaces_ p) (pending_surfaces_ p) (buffer_id_ p)
         created reused (writes_finished_ p).

Definition add_writes_finished (key : Z) (p : VulkanSurfacePool) :=
  mkPool (available_surfaces_ p) (pending_surfaces_ p) (buffer_id_ p)
         (trace_surfaces_created_ p) (trace_surfaces_reused_ p)
         (writes_finished_ p ++ [key]).

(** ** The standard algorithms the file calls *)

(** [std::find_if]: the position of the first element that satisfies the
    predicate, [None] for the end iterator. *)
Fixpoint find_if {A} (p : A -> bool) (l : list A) : option nat :=
  match l with
  | [] => None
  | x :: l' => if p x then Some 0%nat else S <$> find_if p l'
  end.

(** [vector::erase] of one position. *)
Fixpoint erase {A} (i : nat) (l : list A) : list A :=
  match l, i with
  | [], _ => []
  | _ :: l', O => l'
  | x :: l', S j => x :: erase j l'
  end.

(** [erase(remove_if(...), end)] with a predicate that may change the element
    it looks at: the predicate runs once on each element, front to back,
    and the elements it rejects are dropped. *)
Fixpoint erase_remove_if {A} (p : A -> bool * A) (l : list A) : list A :=
  match l with
  | [] => []
  | x :: l' =>
      let '(gone, x') := p x in
      if gone then erase_remove_if p l' else x' :: erase_remove_if p l'
  end.

(** [erase(remove(..., nullptr), end)] on a vector of owning pointers. *)
Fixpoint erase_remove_null {A} (l : list (option A)) : list A :=
  match l with
  | [] => []
  | None :: l' => erase_remove_null l'
  | Some x :: l' => x :: erase_remove_null l'
  end.

(** ** A state monad for the member functions *)

Definition M (A : Type) : Type := VulkanSurfacePool -> A * VulkanSurfacePool.

Global Instance M_ret : MRet M := fun A a p => (a, p).
Global Instance M_bind : MBind M :=
  fun A B k c p => let '(a, p') := c p in k a p'.
Definition get : M VulkanSurfacePool := fun p => (p, p).
Definition modify (f : VulkanSurfacePool -> VulkanSurfacePool) : M unit :=
  fun p => (tt, f p).
Definition ret {A} (a : A) : M A := mret a.
Definition exec {A} (c : M A) (p : VulkanSurfacePool) : VulkanSurfacePool :=
  snd (c p).
Definition result {A} (c : M A) (p : VulkanSurfacePool) : A := fst (c p).

(** ** The member functions *)

Section Members.
Context `{PoolEnv}.

Definition wrap_buffer_id (n : Z) : Z := n mod buffer_id_modulus.
Definition wrap_size_t (n : Z) : Z := n mod size_t_modulus.

(** [std::make_unique<VulkanSurface>(..., size, id)].
    Modelled from the spec: the new surface has the requested size and the
    given identifier; the platform decides the rest. *)
Definition make_VulkanSurface (size : SkISize) (id : Z) : VulkanSurface :=
  let b := allocate size id in
  mkSurface (b_self b) id size (b_valid b) 0 (b_oversized b) (b_stable b)
            (b_allocation_size b) (b_flush_ok b).

Definition CreateSurface (size : SkISize) : M (option VulkanSurface) :=
  p ← get;
  let surface := make_VulkanSurface size (buffer_id_ p) in
  modify (set_buffer_id (wrap_buffer_id (buffer_id_ p + 1)));;
  if negb (IsValid surface) then ret None
  else
    modify (fun p => set_trace (wrap_size_t (trace_surfaces_created_ p + 1))
                               (trace_surfaces_reused_ p) p);;
    ret (Some surface).

Definition exact_match (size : SkISize) (surface : VulkanSurface) : bool :=
  IsValid surface && SkISize_eq (GetSize surface) size.

Definition GetCachedOrCreateSurface (size : SkISize)
  : M (option VulkanSurface) :=
  p ← get;
  match find_if (exact_match size) (available_surfaces_ p) with
  | Some i =>
      let acquired_surface := available_surfaces_ p !! i in
      modify (set_available (erase i (available_surfaces_ p)));;
      ret acquired_surface
  | None => CreateSurface size
  end.

Definition AcquireSurface (size : SkISize) : M (option VulkanSurface) :=
  surface ← GetCachedOrCreateSurface size;
  match surface with
  | None => ret None
  | Some s =>
      if negb (FlushSessionAcquireAndReleaseEvents s) then ret None
      else ret (Some s)
  end.

Definition TraceStats : M unit :=
  modify (set_trace 0 0).

Definition RecycleSurface (surface : VulkanSurface) : M unit :=
  if negb (IsValid surface) then ret tt
  else
    p ← get;
    (if Z.of_nat (length (available_surfaces_ p)) <? kMaxSurfaces
     then modify (set_available (available_surfaces_ p ++ [surface]))
     else ret tt);;
    TraceStats.

Definition RecyclePendingSurface (surface_key : Z) : M unit :=
  p ← get;
  match pending_surfaces_ p !! surface_key with
  | None => ret tt
  | Some surface_to_recycle =>
      modify (set_pending (delete surface_key (pending_surfaces_ p)));;
      RecycleSurface surface_to_recycle
  end.

Definition SubmitSurface (p_surface : option VulkanSurface) : M unit :=
  match p_surface with
  | None => ret tt
  | Some vulkan_surface =>
      let surface_key := self vulkan_surface in
      p ← get;
      match pending_surfaces_ p !! surface_key with
      | Some _ => ret tt
      | None =>
          modify (set_pending
                    (<[surface_key := vulkan_surface]> (pending_surfaces_ p)));;
          modify (add_writes_finished surface_key)
      end
  end.

(** The predicate of the ageing pass: [||] does not advance the age of a
    surface that is no longer valid. *)
Definition too_old (surface : VulkanSurface) : bool * VulkanSurface :=
  if negb (IsValid surface) then (true, surface)
  else
    let '(age, surface') := AdvanceAndGetAge surface in
    (kMaxSurfaceAge <=? age, surface').

Definition shrinkable (surface : VulkanSurface) : bool :=
  IsOversized surface && HasStableSizeHistory surface.

(** The first statement of [AgeAndCollectOldBuffers]: remove all surfaces
    that are no longer valid or are too old. *)
Definition collect_old : M unit :=
  modify (fun p =>
    set_available (erase_remove_if too_old (available_surfaces_ p)) p).

(** The second part: look for one surface to replace with a smaller one. *)
Definition replace_oversized : M unit :=
  p ← get;
  match find_if shrinkable (available_surfaces_ p) with
  | Some i =>
      match available_surfaces_ p !! i with
      | Some found =>
          let size := GetSize found in
          modify (set_available (erase i (available_surfaces_ p)));;
          new_surface ← CreateSurface size;
          match new_surface with
          | Some s =>
              modify (fun p =>
                set_available (available_surfaces_ p ++ [s]) p)
          | None => ret tt
          end
      | None => ret tt
      end
  | None => ret tt
  end.

Definition AgeAndCollectOldBuffers : M unit :=
  collect_old;;
  replace_oversized;;
  TraceStats.

(** The first loop of [ShrinkToFit]: an oversized surface is reset to a
    null pointer and its size recorded. *)
Fixpoint reset_oversized (l : list VulkanSurface)
  : list (option VulkanSurface) * list SkISize :=
  match l with
  | [] => ([], [])
  | surface :: l' =>
      let '(slots, sizes_to_recreate) := reset_oversized l' in
      if IsOversized surface
      then (None :: slots, GetSize surface :: sizes_to_recreate)
      else (Some surface :: slots, sizes_to_recreate)
  end.

(** The second loop: one [CreateSurface] per recorded size. *)
Fixpoint recreate (sizes : list SkISize) : M unit :=
  match sizes with
  | [] => ret tt
  | size :: sizes' =>
      surface ← CreateSurface size;
      match surface with
      | Some s =>
          modify (fun p => set_available (available_surfaces_ p ++ [s]) p)
      | None => ret tt
      end;;
      recreate sizes'
  end.

Definition ShrinkToFit : M unit :=
  p ← get;
  let '(slots, sizes_to_recreate) := reset_oversized (available_surfaces_ p) in
  modify (set_available (erase_remove_null slots));;
  recreate sizes_to_recreate;;
  TraceStats.

End Members.

(** ** Object lifetimes in [ShrinkToFit]

    The same code with the lifetime of the surface objects written down:
    a log records, in program order, each construction of a surface
    ([std::make_unique]) and each destruction ([reset] of an owning pointer,
    or an owning pointer going out of scope). *)

Inductive lifetime_event :=
  | EvConstruct (s : VulkanSurface)
  | EvDestroy (s : VulkanSurface).

Section Lifetimes.
Context `{PoolEnv}.

(** [CreateSurface]: the surface is constructed; an invalid one is
    destroyed when the function returns null. *)
Definition CreateSurface_logged (size : SkISize)
    (pl : VulkanSurfacePool * list lifetime_event)
  : option VulkanSurface * (VulkanSurfacePool * list lifetime_event) :=
  let '(p, log) := pl in
  let surface := make_VulkanSurface size (buffer_id_ p) in
  let log := log ++ [EvConstruct surface] in
  let p := set_buffer_id (wrap_buffer_id (buffer_id_ p + 1)) p in
  if negb (IsValid surface) then (None, (p, log ++ [EvDestroy surface]))
  else
    (Some surface,
     (set_trace (wrap_size_t (trace_surfaces_created_ p + 1))
                (trace_surfaces_reused_ p) p, log)).

(** The first loop, front to back: [reset] destroys the oversized
    surface. *)
Fixpoint reset_oversized_logged (l : list VulkanSurface)
  : list (option VulkanSurface) * list SkISize * list lifetime_event :=
  match l with
  | [] => ([], [], [])
  | surface :: l' =>
      let '(slots, sizes_to_recreate, log) := reset_oversized_logged l' in
      if IsOversized surface
      then (None :: slots, GetSize surface :: sizes_to_recreate,
            EvDestroy surface :: log)
      else (Some surface :: slots, sizes_to_recreate, log)
  end.

(** The second loop. *)
Fixpoint recreate_logged (sizes : list SkISize)
    (pl : VulkanSurfacePool * list lifetime_event)
  : VulkanSurfacePool * list lifetime_event :=
  match sizes with
  | [] => pl
  | size :: sizes' =>
      let '(surface, (p, log)) := CreateSurface_logged size pl in
      recreate_logged sizes'
        (match surface with
         | Some s => set_available (available_surfaces_ p ++ [s]) p
         | None => p
         end, log)
  end.

Definition ShrinkToFit_logged (p : VulkanSurfacePool)
  : VulkanSurfacePool * list lifetime_event :=
  let '(slots, sizes_to_recreate, log) :=
    reset_oversized_logged (available_surfaces_ p) in
  let '(p', log') :=
    recreate_logged sizes_to_recreate
      (set_available (erase_remove_null slots) p, log) in
  (exec TraceStats p', log').

End Lifetimes.

(** ** The constructor *)

Definition ZX_OK : Z := 0.

(** The condition handed to [FML_DCHECK] in the constructor. *)
Definition ctor_dcheck (status : Z) : bool := negb (status =? ZX_OK).

Inductive construction :=
  | Constructed (p : VulkanSurfacePool)
  | DcheckFailed.

(** Modelled from the spec: the member initialisers are in the header; a new
    pool caches nothing, has nothing pending, hands out identifiers from 0
    and has both counters at zero. *)
Definition empty_pool : VulkanSurfacePool := mkPool [] ∅ 0 0 0 [].

(** [status] is what [fdio_service_connect] returned; [dchecks] tells
    whether the build keeps debug assertions. *)
Definition VulkanSurfacePool_ctor (dchecks : bool) (status : Z)
  : construction :=
  if dchecks && negb (ctor_dcheck status) then DcheckFailed
  else Constructed empty_pool.

(** ** Sample environments and pools *)

Definition sample_allocate (ok : bool) (size : SkISize) (id : Z) : Backing :=
  mkBacking (4096 + 256 * id) ok false true (4 * width size * height size) true.

(** Twelve cached surfaces, three ageing passes, a 32-bit identifier and
    64-bit counters; every construction succeeds. *)
Definition sample_env : PoolEnv :=
  mkEnv 12 3 (2 ^ 32) (2 ^ 64) (sample_allocate true).

(** The same, on a platform where no construction succeeds. *)
Definition failing_env : PoolEnv :=
  mkEnv 12 3 (2 ^ 32) (2 ^ 64) (sample_allocate false).

(** A pool that caches at most one surface. *)
Definition tiny_env : PoolEnv :=
  mkEnv 1 3 (2 ^ 32) (2 ^ 64) (sample_allocate true).

Definition size_a : SkISize := mkSize 640 480.
Definition size_b : SkISize := mkSize 1280 720.

(** [surface_at addr id size valid age oversized flush]. *)
Definition surface_at (addr id : Z) (size : SkISize)
    (valid : bool) (age : Z) (oversized flush : bool) : VulkanSurface :=
  mkSurface addr id size valid age oversized true
            (4 * width size * height size) flush.

Definition pool_of (l : list VulkanSurface) : VulkanSurfacePool :=
  mkPool l ∅ 7 2 0 [].

Definition surface_a : VulkanSurface :=
  surface_at 4096 0 size_a true 0 false true.
Definition surface_b : VulkanSurface :=
  surface_at 8192 1 size_b true 1 true true.
(** Valid and of size [size_a], but its session events cannot be flushed. *)
Definition surface_unflushed : VulkanSurface :=
  surface_at 12288 2 size_a true 0 false false.
(** No longer valid. *)
Definition surface_dead : VulkanSurface :=
  surface_at 16384 3 size_a false 0 false true.
(** Another oversized surface. *)
Definition surface_c : VulkanSurface :=
  surface_at 20480 4 size_a true 0 true true.

(** A pool with [surface_b] submitted and not yet signalled. *)
Definition pool_with_pending : VulkanSurfacePool :=
  mkPool [surface_a] {[ 8192 := surface_b ]} 7 2 0 [8192].

(** A pool at capacity for [sample_env]: twelve cached surfaces. *)
Definition full_pool : VulkanSurfacePool :=
  pool_of (replicate 12 surface_a).

(** ** Vocabulary of the statements *)

(** A surface answers a request for [size]: it is valid and has exactly
    that size. *)
Definition matches (size : SkISize) (s : VulkanSurface) : Prop :=
  IsValid s = true /\ GetSize s = size.

(** The two statistics counters of a pool. *)
Definition counters (p : VulkanSurfacePool) : Z * Z :=
  (trace_surfaces_created_ p, trace_surfaces_reused_ p).

(** What the post-acquire flush lets through. *)
Definition flushed (o : option VulkanSurface) : option VulkanSurface :=
  match o with
  | Some s => if FlushSessionAcquireAndReleaseEvents s then Some s else None
  | None => None
  end.

(** The surface after one [AdvanceAndGetAge]. *)
Definition aged (s : VulkanSurface) : VulkanSurface :=
  snd (AdvanceAndGetAge s).

(** A surface survives the ageing pass: it is valid and one more unit of
    age keeps it under [kMaxSurfaceAge]. *)
Definition survives `{PoolEnv} (s : VulkanSurface) : bool :=
  IsValid s && (age_ s + 1 <? kMaxSurfaceAge).

(** A surface the replacement step looks for. *)
Definition replaceable (s : VulkanSurface) : Prop :=
  IsOversized s = true /\ HasStableSizeHistory s = true.

(** The surfaces successive constructions yield for a list of sizes,
    starting at identifier [id]. *)
Fixpoint constructed `{PoolEnv} (id : Z) (sizes : list SkISize)
  : list VulkanSurface :=
  match sizes with
  | [] => []
  | size :: sizes' =>
      make_VulkanSurface size id :: constructed (wrap_buffer_id (id + 1)) sizes'
  end.

(** What the construction of one replacement surface writes to the log. *)
Definition replacement_events (s : VulkanSurface) : list lifetime_event :=
  if IsValid s then [EvConstruct s] else [EvConstruct s; EvDestroy s].

(** The operations of the pool, and the capacity bound. *)
Inductive operation :=
  | OpAcquireSurface (size : SkISize)
  | OpGetCachedOrCreateSurface (size : SkISize)
  | OpCreateSurface (size : SkISize)
  | OpSubmitSurface (p_surface : option VulkanSurface)
  | OpRecyclePendingSurface (surface_key : Z)
  | OpRecycleSurface (surface : VulkanSurface)
  | OpAgeAndCollectOldBuffers
  | OpShrinkToFit
  | OpTraceStats.

Definition run_op `{PoolEnv} (o : operation) (p : VulkanSurfacePool)
  : VulkanSurfacePool :=
  match o with
  | OpAcquireSurface size => exec (AcquireSurface size) p
  | OpGetCachedOrCreateSurface size => exec (GetCachedOrCreateSurface size) p
  | OpCreateSurface size => exec (CreateSurface size) p
  | OpSubmitSurface p_surface => exec (SubmitSurface p_surface) p
  | OpRecyclePendingSurface key => exec (RecyclePendingSurface key) p
  | OpRecycleSurface surface => exec (RecycleSurface surface) p
  | OpAgeAndCollectOldBuffers => exec AgeAndCollectOldBuffers p
  | OpShrinkToFit => exec ShrinkToFit p
  | OpTraceStats => exec TraceStats p
  end.

Definition within_capacity `{PoolEnv} (p : VulkanSurfacePool) : Prop :=
  Z.of_nat (length (available_surfaces_ p)) <= kMaxSurfaces.

(** A run of operations, first to last. *)
Definition run_ops `{PoolEnv} (os : list operation) (p : VulkanSurfacePool)
  : VulkanSurfacePool :=
  fold_left (fun q o => run_op o q) os p.

(** [n] calls of [AgeAndCollectOldBuffers] in a row. *)
Definition age_and_collect_calls `{PoolEnv} (n : nat) (p : VulkanSurfacePool)
  : VulkanSurfacePool :=
  Nat.iter n (exec AgeAndCollectOldBuffers) p.

(** The identifier counter after [n] constructions. *)
Definition advance_buffer_id `{PoolEnv} (n : nat) (id : Z) : Z :=
  Nat.iter n (fun i => wrap_buffer_id (i + 1)) id.

(** Every pending surface is stored under its own address, and a
    writes-finished callback bound to that key has been registered. *)
Definition pending_well_keyed (p : VulkanSurfacePool) : Prop :=
  forall key s, pending_surfaces_ p !! key = Some s ->
                self s = key /\ In key (writes_finished_ p).

(** What the pool keeps of the submitted surfaces: the pending surfaces
    and the record of the registered callbacks. *)
Definition submitted (p : VulkanSurfacePool) : gmap Z VulkanSurface * list Z :=
  (pending_surfaces_ p, writes_finished_ p).

(** The operations that work on the pending surfaces. *)
Definition touches_pending (o : operation) : bool :=
  match o with
  | OpSubmitSurface _ | OpRecyclePendingSurface _ => true
  | _ => false
  end.

(** ** Facts about the standard algorithms *)

Lemma find_if_app {A} (p : A -> bool) (l1 l2 : list A) (x : A) :
  Forall (fun y => p y = false) l1 -> p x = true ->
  find_if p (l1 ++ x :: l2) = Some (length l1).
Proof.
  intros Hl1 Hx. induction Hl1 as [|y l1 Hy _ IH]; simpl.
  - now rewrite Hx.
  - now rewrite Hy, IH.
Qed.

Lemma find_if_Some {A} (p : A -> bool) (l : list A) (i : nat) :
  find_if p l = Some i ->
  exists l1 x l2, l = l1 ++ x :: l2 /\ length l1 = i /\
                  Forall (fun y => p y = false) l1 /\ p x = true.
Proof.
  revert i. induction l as [|y l IH]; simpl; intros i Hi; [discriminate|].
  destruct (p y) eqn:Hy.
  - inversion Hi; subst. exists [], y, l. repeat split; auto.
  - destruct (find_if p l) as [j|] eqn:Hj; [|discriminate].
    simpl in Hi. inversion Hi; subst.
    destruct (IH j eq_refl) as (l1 & x & l2 & -> & <- & Hl1 & Hx).
    exists (y :: l1), x, l2. repeat split; auto.
Qed.

Lemma find_if_None {A} (p : A -> bool) (l : list A) :
  find_if p l = None <-> Forall (fun y => p y = false) l.
Proof.
  induction l as [|y l IH]; simpl.
  - split; auto.
  - destruct (p y) eqn:Hy.
    + split; [discriminate|]. intros Hall. inversion Hall; congruence.
    + destruct (find_if p l); simpl.
      * split; [discriminate|]. intros Hall. inversion Hall; subst.
        apply IH in H2. discriminate.
      * split; auto. intros _. constructor; auto. now apply IH.
Qed.

Lemma erase_app {A} (l1 l2 : list A) (x : A) :
  erase (length l1) (l1 ++ x :: l2) = l1 ++ l2.
Proof. induction l1 as [|y l1 IH]; simpl; congruence. Qed.

Lemma lookup_app_length {A} (l1 l2 : list A) (x : A) :
  (l1 ++ x :: l2) !! length l1 = Some x.
Proof. induction l1 as [|y l1 IH]; simpl; auto. Qed.

Lemma erase_length_le {A} (i : nat) (l : list A) :
  (length (erase i l) <= length l)%nat.
Proof.
  revert i. induction l as [|x l IH]; intros [|i]; simpl; auto.
  specialize (IH i). lia.
Qed.

Lemma erase_remove_if_length_le {A} (p : A -> bool * A) (l : list A) :
  (length (erase_remove_if p l) <= length l)%nat.
Proof.
  induction l as [|x l IH]; simpl; auto.
  destruct (p x) as [[|] x']; simpl; lia.
Qed.

(** ** Running the member functions *)

Ltac run :=
  unfold exec, result, ret, get, modify, mret, mbind, M_ret, M_bind in *;
  cbn [fst snd] in *.

Lemma CreateSurface_eq `{PoolEnv} (size : SkISize) (p : VulkanSurfacePool) :
  CreateSurface size p =
    let s := make_VulkanSurface size (buffer_id_ p) in
    let p1 := set_buffer_id (wrap_buffer_id (buffer_id_ p + 1)) p in
    if IsValid s
    then (Some s, set_trace (wrap_size_t (trace_surfaces_created_ p + 1))
                            (trace_surfaces_reused_ p) p1)
    else (None, p1).
Proof.
  unfold CreateSurface. run. cbv zeta.
  destruct (IsValid (make_VulkanSurface size (buffer_id_ p))); reflexivity.
Qed.

Lemma CreateSurface_available `{PoolEnv} size p :
  available_surfaces_ (exec (CreateSurface size) p) = available_surfaces_ p.
Proof.
  unfold exec. rewrite CreateSurface_eq. cbv zeta.
  destruct (IsValid _); reflexivity.
Qed.

Lemma CreateSurface_valid `{PoolEnv} size p s :
  result (CreateSurface size) p = Some s -> IsValid s = true.
Proof.
  unfold result. rewrite CreateSurface_eq. cbv zeta.
  destruct (IsValid _) eqn:Hv; simpl; intros Hs; [|discriminate].
  now inversion Hs; subst.
Qed.

Lemma GetCachedOrCreateSurface_hit `{PoolEnv} size p l1 s l2 :
  available_surfaces_ p = l1 ++ s :: l2 ->
  Forall (fun x => exact_match size x = false) l1 ->
  exact_match size s = true ->
  GetCachedOrCreateSurface size p = (Some s, set_available (l1 ++ l2) p).
Proof.
  intros Hp Hl1 Hs. unfold GetCachedOrCreateSurface. run.
  rewrite Hp, (find_if_app _ _ _ _ Hl1 Hs).
  now rewrite lookup_app_length, erase_app.
Qed.

Lemma GetCachedOrCreateSurface_miss `{PoolEnv} size p :
  Forall (fun x => exact_match size x = false) (available_surfaces_ p) ->
  GetCachedOrCreateSurface size p = CreateSurface size p.
Proof.
  intros Hall. unfold GetCachedOrCreateSurface. run.
  apply find_if_None in Hall. now rewrite Hall.
Qed.

Lemma exact_match_valid size s : exact_match size s = true -> IsValid s = true.
Proof. unfold exact_match. now intros [Hv _]%andb_true_iff. Qed.

Lemma exact_match_size size s :
  exact_match size s = true -> GetSize s = size.
Proof.
  unfold exact_match, SkISize_eq.
  intros [_ [Hw Hh]%andb_true_iff]%andb_true_iff.
  apply Z.eqb_eq in Hw, Hh.
  destruct (GetSize s), size; simpl in *; congruence.
Qed.

Lemma GetCachedOrCreateSurface_cases `{PoolEnv} size p :
  (exists l1 s l2, available_surfaces_ p = l1 ++ s :: l2 /\
     Forall (fun x => exact_match size x = false) l1 /\
     exact_match size s = true) \/
  Forall (fun x => exact_match size x = false) (available_surfaces_ p).
Proof.
  destruct (find_if (exact_match size) (available_surfaces_ p)) as [i|] eqn:Hf.
  - left. apply find_if_Some in Hf as (l1 & s & l2 & ? & _ & ? & ?). eauto 6.
  - right. now apply find_if_None.
Qed.

Lemma GetCachedOrCreateSurface_valid `{PoolEnv} size p s :
  result (GetCachedOrCreateSurface size) p = Some s -> IsValid s = true.
Proof.
  destruct (GetCachedOrCreateSurface_cases size p)
    as [(l1 & x & l2 & Hp & Hl1 & Hx)|Hall].
  - unfold result. rewrite (GetCachedOrCreateSurface_hit _ _ _ _ _ Hp Hl1 Hx).
    simpl. intros [= <-]. eapply exact_match_valid; eauto.
  - unfold result. rewrite (GetCachedOrCreateSurface_miss _ _ Hall).
    apply CreateSurface_valid.
Qed.

Lemma AcquireSurface_eq `{PoolEnv} size p :
  AcquireSurface size p =
    (match result (GetCachedOrCreateSurface size) p with
     | Some s => if FlushSessionAcquireAndReleaseEvents s then Some s else None
     | None => None
     end, exec (GetCachedOrCreateSurface size) p).
Proof.
  unfold AcquireSurface. run.
  destruct (GetCachedOrCreateSurface size p) as [[s|] p']; simpl; auto.
  destruct (FlushSessionAcquireAndReleaseEvents s); reflexivity.
Qed.

Lemma AcquireSurface_exec `{PoolEnv} size p :
  exec (AcquireSurface size) p = exec (GetCachedOrCreateSurface size) p.
Proof. unfold exec at 1. now rewrite AcquireSurface_eq. Qed.

Lemma exact_match_true size s : exact_match size s = true <-> matches size s.
Proof.
  split.
  - intros Hm. split; [eapply exact_match_valid|eapply exact_match_size]; eauto.
  - intros [Hv <-]. unfold exact_match, SkISize_eq.
    now rewrite Hv, !Z.eqb_refl.
Qed.

Lemma exact_match_false size s :
  exact_match size s = false <-> ~ matches size s.
Proof.
  rewrite <- exact_match_true.
  destruct (exact_match size s); split; congruence.
Qed.

Lemma Forall_exact_match_false size l :
  Forall (fun x => ~ matches size x) l ->
  Forall (fun x => exact_match size x = false) l.
Proof.
  intros Hl. eapply Forall_impl; [exact Hl|].
  intros x. apply exact_match_false.
Qed.

(** ** Acquiring a surface *)

(** C1, as amended: [AcquireSurface] scans the available surfaces in vector
    order.  If some surface is valid and has exactly the requested size, the
    first such surface is erased from the vector, every other entry staying
    in place, and it is returned provided its session events can be flushed;
    when the flush fails the surface is still taken out of the pool and the
    call returns null.  If no surface matches, the pool is left as
    [CreateSurface] leaves it, the available surfaces are unchanged, and the
    result is that of [CreateSurface], again subject to the flush.  No
    surface that is returned is invalid. *)
Theorem AcquireSurface_first_exact_match `{PoolEnv} size p :
  (forall l1 s l2,
     available_surfaces_ p = l1 ++ s :: l2 ->
     Forall (fun x => ~ matches size x) l1 ->
     matches size s ->
     GetCachedOrCreateSurface size p = (Some s, set_available (l1 ++ l2) p) /\
     AcquireSurface size p = (flushed (Some s), set_available (l1 ++ l2) p)) /\
  (Forall (fun x => ~ matches size x) (available_surfaces_ p) ->
     GetCachedOrCreateSurface size p = CreateSurface size p /\
     AcquireSurface size p =
       (flushed (result (CreateSurface size) p),
        exec (CreateSurface size) p) /\
     available_surfaces_ (exec (AcquireSurface size) p) =
       available_surfaces_ p) /\
  (forall s, result (AcquireSurface size) p = Some s -> IsValid s = true).
Proof.
  split; [|split].
  - intros l1 s l2 Hp Hl1 Hs.
    apply Forall_exact_match_false in Hl1. apply exact_match_true in Hs.
    pose proof (GetCachedOrCreateSurface_hit _ _ _ _ _ Hp Hl1 Hs) as Hget.
    split; [exact Hget|].
    rewrite AcquireSurface_eq. unfold result, exec. now rewrite Hget.
  - intros Hall. apply Forall_exact_match_false in Hall.
    pose proof (GetCachedOrCreateSurface_miss _ _ Hall) as Hget.
    split; [exact Hget|].
    unfold exec at 2. rewrite AcquireSurface_eq. cbn [snd].
    unfold result, exec. rewrite Hget.
    split; [reflexivity|]. apply (CreateSurface_available size p).
  - intros s. unfold result at 1. rewrite AcquireSurface_eq. cbn [fst].
    destruct (result (GetCachedOrCreateSurface size) p) as [x|] eqn:Hx;
      [|discriminate].
    destruct (FlushSessionAcquireAndReleaseEvents x); [|discriminate].
    intros [= <-]. eapply GetCachedOrCreateSurface_valid; eauto.
Qed.

Lemma AcquireSurface_first_exact_match_witness :
  @AcquireSurface sample_env size_a (pool_of [surface_b; surface_a; surface_c])
  = (Some surface_a, pool_of [surface_b; surface_c]).
Proof.
  destruct (@AcquireSurface_first_exact_match sample_env size_a
              (pool_of [surface_b; surface_a; surface_c])) as [Hreuse _].
  destruct (Hreuse [surface_b] surface_a [surface_c]) as [_ Hacq].
  - reflexivity.
  - constructor; [|constructor]. intros [_ Hsize]. discriminate Hsize.
  - split; reflexivity.
  - exact Hacq.
Defined.

(** A valid surface of the requested size whose flush fails leaves the pool
    and is not returned. *)
Lemma AcquireSurface_flush_failure :
  matches size_a surface_unflushed /\
  result (@AcquireSurface sample_env size_a) (pool_of [surface_unflushed])
    <> Some surface_unflushed /\
  @AcquireSurface sample_env size_a (pool_of [surface_unflushed])
    = (None, pool_of []).
Proof.
  split; [split; reflexivity|]. split; [|reflexivity].
  intros Heq. vm_compute in Heq. discriminate Heq.
Qed.

(** ** The statistics counters *)

(** C9: an acquisition that reuses a cached surface changes neither
    statistics counter.  A creation increments the "created" counter by one
    (in the arithmetic of its type, so by exactly one short of the largest
    value) when the new surface is valid and leaves both counters alone when
    it is not; an acquisition that finds no match is such a creation. *)
Theorem created_counter `{PoolEnv} size p :
  (Exists (matches size) (available_surfaces_ p) ->
     counters (exec (GetCachedOrCreateSurface size) p) = counters p /\
     counters (exec (AcquireSurface size) p) = counters p) /\
  (IsValid (make_VulkanSurface size (buffer_id_ p)) = true ->
     result (CreateSurface size) p =
       Some (make_VulkanSurface size (buffer_id_ p)) /\
     counters (exec (CreateSurface size) p) =
       (wrap_size_t (trace_surfaces_created_ p + 1),
        trace_surfaces_reused_ p) /\
     (0 <= trace_surfaces_created_ p < size_t_modulus - 1 ->
      trace_surfaces_created_ (exec (CreateSurface size) p) =
        trace_surfaces_created_ p + 1)) /\
  (IsValid (make_VulkanSurface size (buffer_id_ p)) = false ->
     result (CreateSurface size) p = None /\
     counters (exec (CreateSurface size) p) = counters p) /\
  (~ Exists (matches size) (available_surfaces_ p) ->
     exec (AcquireSurface size) p = exec (CreateSurface size) p).
Proof.
  assert (Hhit : Exists (matches size) (available_surfaces_ p) ->
                 exec (GetCachedOrCreateSurface size) p
                 = set_available (available_surfaces_
                                    (exec (GetCachedOrCreateSurface size) p)) p).
  { intros Hex.
    destruct (GetCachedOrCreateSurface_cases size p)
      as [(l1 & s & l2 & Hp & Hl1 & Hs)|Hall].
    - unfold exec.
      now rewrite (GetCachedOrCreateSurface_hit _ _ _ _ _ Hp Hl1 Hs).
    - exfalso. apply Exists_exists in Hex as (x & Hin & Hx).
      rewrite Forall_forall in Hall. apply exact_match_true in Hx.
      rewrite (Hall x Hin) in Hx. discriminate. }
  split; [|split; [|split]].
  - intros Hex. apply Hhit in Hex.
    rewrite AcquireSurface_exec, Hex. split; reflexivity.
  - intros Hv. unfold result, exec. rewrite CreateSurface_eq. cbv zeta.
    rewrite Hv. cbn [fst snd]. split; [reflexivity|]. split; [reflexivity|].
    intros Hrange. simpl. unfold wrap_size_t. apply Z.mod_small. lia.
  - intros Hv. unfold result, exec. rewrite CreateSurface_eq. cbv zeta.
    rewrite Hv. split; reflexivity.
  - intros Hnone. rewrite AcquireSurface_exec.
    unfold exec. rewrite GetCachedOrCreateSurface_miss; [reflexivity|].
    apply Forall_forall. intros x Hin. apply exact_match_false.
    intros Hx. apply Hnone. apply Exists_exists. eauto.
Qed.

Lemma created_counter_witness :
  result (@CreateSurface sample_env size_b) (pool_of [surface_a]) =
    Some (@make_VulkanSurface sample_env size_b 7) /\
  trace_surfaces_created_ (exec (@CreateSurface sample_env size_b)
                                (pool_of [surface_a])) = 3.
Proof.
  destruct (@created_counter sample_env size_b (pool_of [surface_a]))
    as (_ & Hok & _).
  destruct Hok as (Hres & _ & Hplus); [reflexivity|].
  split; [exact Hres|]. apply Hplus. simpl. lia.
Defined.

(** ** Recycling *)

Lemma RecycleSurface_eq `{PoolEnv} s p :
  RecycleSurface s p =
    (tt, if IsValid s
         then set_trace 0 0
                (if Z.of_nat (length (available_surfaces_ p)) <? kMaxSurfaces
                 then set_available (available_surfaces_ p ++ [s]) p
                 else p)
         else p).
Proof.
  unfold RecycleSurface, TraceStats. run.
  destruct (IsValid s); cbn [negb]; [|reflexivity].
  destruct (_ <? _); reflexivity.
Qed.

Lemma RecycleSurface_pending `{PoolEnv} s p :
  pending_surfaces_ (exec (RecycleSurface s) p) = pending_surfaces_ p.
Proof.
  unfold exec. rewrite RecycleSurface_eq. cbn [snd].
  destruct (IsValid s); [|reflexivity]. destruct (_ <? _); reflexivity.
Qed.

(** C3: [RecycleSurface] drops an invalid surface and leaves the pool as it
    was.  A valid surface is appended to the available surfaces when fewer
    than [kMaxSurfaces] are cached; otherwise the surface handed in is the
    one dropped and the cached surfaces, the oldest included, stay as they
    are. *)
Theorem RecycleSurface_capacity `{PoolEnv} s p :
  (IsValid s = false -> exec (RecycleSurface s) p = p) /\
  (IsValid s = true ->
   Z.of_nat (length (available_surfaces_ p)) < kMaxSurfaces ->
   available_surfaces_ (exec (RecycleSurface s) p)
     = available_surfaces_ p ++ [s]) /\
  (IsValid s = true ->
   kMaxSurfaces <= Z.of_nat (length (available_surfaces_ p)) ->
   available_surfaces_ (exec (RecycleSurface s) p) = available_surfaces_ p).
Proof.
  unfold exec. rewrite RecycleSurface_eq. cbn [snd].
  split; [|split].
  - now intros ->.
  - intros -> Hroom. apply Z.ltb_lt in Hroom. now rewrite Hroom.
  - intros -> Hfull. apply Z.ltb_ge in Hfull. now rewrite Hfull.
Qed.

Lemma RecycleSurface_capacity_witness :
  available_surfaces_ (exec (@RecycleSurface tiny_env surface_b)
                            (pool_of [surface_a])) = [surface_a] /\
  available_surfaces_ (exec (@RecycleSurface sample_env surface_b)
                            (pool_of [surface_a])) = [surface_a; surface_b] /\
  exec (@RecycleSurface sample_env surface_dead) (pool_of [surface_a])
    = pool_of [surface_a].
Proof.
  destruct (@RecycleSurface_capacity tiny_env surface_b (pool_of [surface_a]))
    as (_ & _ & Hfull).
  destruct (@RecycleSurface_capacity sample_env surface_b
              (pool_of [surface_a])) as (_ & Hroom & _).
  destruct (@RecycleSurface_capacity sample_env surface_dead
              (pool_of [surface_a])) as (Hdead & _ & _).
  split; [|split].
  - apply Hfull; [reflexivity|]. simpl. lia.
  - apply Hroom; [reflexivity|]. simpl. lia.
  - apply Hdead. reflexivity.
Defined.

(** ** Pending surfaces *)

Lemma RecyclePendingSurface_eq `{PoolEnv} key p :
  RecyclePendingSurface key p =
    match pending_surfaces_ p !! key with
    | Some s =>
        RecycleSurface s (set_pending (delete key (pending_surfaces_ p)) p)
    | None => (tt, p)
    end.
Proof.
  unfold RecyclePendingSurface. run.
  destruct (pending_surfaces_ p !! key); reflexivity.
Qed.

(** C8: [RecyclePendingSurface] erases the entry of its key from the pending
    surfaces and recycles the surface that entry held; without such an entry
    the call changes nothing.  So the second of two calls for one key is a
    no-op: the surface is recycled once. *)
Theorem RecyclePendingSurface_once `{PoolEnv} key p :
  (forall s, pending_surfaces_ p !! key = Some s ->
     RecyclePendingSurface key p =
       RecycleSurface s (set_pending (delete key (pending_surfaces_ p)) p) /\
     pending_surfaces_ (exec (RecyclePendingSurface key) p)
       = delete key (pending_surfaces_ p)) /\
  (pending_surfaces_ p !! key = None ->
     RecyclePendingSurface key p = (tt, p)) /\
  pending_surfaces_ (exec (RecyclePendingSurface key) p) !! key = None /\
  exec (RecyclePendingSurface key) (exec (RecyclePendingSurface key) p)
    = exec (RecyclePendingSurface key) p.
Proof.
  assert (Hgone :
    pending_surfaces_ (exec (RecyclePendingSurface key) p) !! key = None).
  { unfold exec. rewrite RecyclePendingSurface_eq.
    destruct (pending_surfaces_ p !! key) as [s|] eqn:Hk; [|exact Hk].
    fold (exec (RecycleSurface s)
               (set_pending (delete key (pending_surfaces_ p)) p)).
    rewrite RecycleSurface_pending. simpl. apply lookup_delete_eq. }
  split; [|split; [|split]].
  - intros s Hk. rewrite RecyclePendingSurface_eq, Hk. split; [reflexivity|].
    unfold exec. rewrite RecyclePendingSurface_eq, Hk.
    fold (exec (RecycleSurface s)
               (set_pending (delete key (pending_surfaces_ p)) p)).
    now rewrite RecycleSurface_pending.
  - intros Hk. now rewrite RecyclePendingSurface_eq, Hk.
  - exact Hgone.
  - unfold exec at 1. rewrite RecyclePendingSurface_eq, Hgone. reflexivity.
Qed.

Lemma RecyclePendingSurface_once_witness :
  exec (@RecyclePendingSurface sample_env 8192) pool_with_pending
    = mkPool [surface_a; surface_b] ∅ 7 0 0 [8192] /\
  @RecyclePendingSurface sample_env 4096 pool_with_pending
    = (tt, pool_with_pending).
Proof.
  destruct (@RecyclePendingSurface_once sample_env 8192 pool_with_pending)
    as (Hfound & _).
  destruct (@RecyclePendingSurface_once sample_env 4096 pool_with_pending)
    as (_ & Habsent & _).
  split.
  - destruct (Hfound surface_b) as [Heq _]; [reflexivity|].
    unfold exec. rewrite Heq. vm_compute. reflexivity.
  - apply Habsent. reflexivity.
Defined.

Lemma SubmitSurface_eq (s : VulkanSurface) (p : VulkanSurfacePool) :
  SubmitSurface (Some s) p =
    (tt, match pending_surfaces_ p !! self s with
         | Some _ => p
         | None =>
             add_writes_finished (self s)
               (set_pending (<[self s := s]> (pending_surfaces_ p)) p)
         end).
Proof.
  unfold SubmitSurface. run.
  destruct (pending_surfaces_ p !! self s); reflexivity.
Qed.

(** C2, as amended: [SubmitSurface] keys a surface by the address of the
    surface object (the value of the pointer that owns it), not by the
    identifier the surface was created with.  A null pointer is ignored.
    Otherwise the surface is inserted into the pending surfaces under that
    key and one writes-finished callback, bound to the key, is registered;
    when the key is already present the call changes nothing and registers
    no callback, so a second submit under the same key is a no-op. *)
Theorem SubmitSurface_keyed_by_address (p : VulkanSurfacePool) :
  SubmitSurface None p = (tt, p) /\
  (forall s : VulkanSurface,
     (pending_surfaces_ p !! self s = None ->
        exec (SubmitSurface (Some s)) p =
          add_writes_finished (self s)
            (set_pending (<[self s := s]> (pending_surfaces_ p)) p) /\
        pending_surfaces_ (exec (SubmitSurface (Some s)) p) !! self s
          = Some s /\
        writes_finished_ (exec (SubmitSurface (Some s)) p)
          = writes_finished_ p ++ [self s]) /\
     (is_Some (pending_surfaces_ p !! self s) ->
        exec (SubmitSurface (Some s)) p = p) /\
     exec (SubmitSurface (Some s)) (exec (SubmitSurface (Some s)) p)
       = exec (SubmitSurface (Some s)) p).
Proof.
  split; [reflexivity|]. intros s.
  assert (Hdup : forall q, is_Some (pending_surfaces_ q !! self s) ->
                           exec (SubmitSurface (Some s)) q = q).
  { intros q [x Hx]. unfold exec. now rewrite SubmitSurface_eq, Hx. }
  assert (Hnew : pending_surfaces_ p !! self s = None ->
                 exec (SubmitSurface (Some s)) p =
                   add_writes_finished (self s)
                     (set_pending (<[self s := s]> (pending_surfaces_ p)) p)).
  { intros Hk. unfold exec. now rewrite SubmitSurface_eq, Hk. }
  split; [|split].
  - intros Hk. rewrite (Hnew Hk). split; [reflexivity|]. simpl.
    split; [apply lookup_insert_eq|reflexivity].
  - apply Hdup.
  - apply Hdup. destruct (decide (is_Some (pending_surfaces_ p !! self s)))
      as [Hk|Hk].
    + now rewrite (Hdup p Hk).
    + apply eq_None_not_Some in Hk.
      rewrite (Hnew Hk). simpl. rewrite lookup_insert_eq. eauto.
Qed.

Lemma SubmitSurface_keyed_by_address_witness :
  exec (SubmitSurface (Some surface_b)) (pool_of [surface_a])
    = pool_with_pending /\
  exec (SubmitSurface (Some surface_b)) pool_with_pending = pool_with_pending.
Proof.
  destruct (SubmitSurface_keyed_by_address (pool_of [surface_a]))
    as [_ Hfresh].
  destruct (SubmitSurface_keyed_by_address pool_with_pending) as [_ Hdup].
  split.
  - destruct (Hfresh surface_b) as ((Heq & _) & _); [reflexivity|].
    rewrite Heq. vm_compute. reflexivity.
  - destruct (Hdup surface_b) as (_ & Hsame & _). apply Hsame.
    exists surface_b. reflexivity.
Defined.

(** [surface_b] was created with identifier 1 and lives at address 8192:
    after it is submitted, the pending surfaces hold it under 8192 and hold
    nothing under 1. *)
Lemma SubmitSurface_not_keyed_by_identifier :
  buffer_id surface_b = 1 /\
  pending_surfaces_ (exec (SubmitSurface (Some surface_b)) (pool_of []))
    !! buffer_id surface_b = None /\
  pending_surfaces_ (exec (SubmitSurface (Some surface_b)) (pool_of []))
    !! self surface_b = Some surface_b /\
  writes_finished_ (exec (SubmitSurface (Some surface_b)) (pool_of []))
    = [8192].
Proof. repeat split; vm_compute; reflexivity. Qed.

(** ** The constructor *)

(** C10: the debug assertion of the constructor requires that connecting to
    the sysmem allocator did not return [ZX_OK].  It fails in every
    construction in which the connection succeeds, and holds exactly when
    the connection fails. *)
Theorem ctor_dcheck_rejects_success (status : Z) :
  (ctor_dcheck status = true <-> status <> ZX_OK) /\
  (status = ZX_OK ->
     ctor_dcheck status = false /\
     VulkanSurfacePool_ctor true status = DcheckFailed) /\
  (status <> ZX_OK ->
     VulkanSurfacePool_ctor true status = Constructed empty_pool).
Proof.
  unfold VulkanSurfacePool_ctor, ctor_dcheck.
  destruct (Z.eqb_spec status ZX_OK) as [->|Hne]; simpl.
  - split; [split; [discriminate|congruence]|]. split; [auto|congruence].
  - split; [split; auto|]. split; [congruence|auto].
Qed.

Lemma ctor_dcheck_rejects_success_witness :
  VulkanSurfacePool_ctor true 0 = DcheckFailed /\
  VulkanSurfacePool_ctor true (-1) = Constructed empty_pool.
Proof.
  split.
  - destruct (ctor_dcheck_rejects_success 0) as (_ & Hok & _).
    destruct Hok as [_ Hfail]; [reflexivity|exact Hfail].
  - destruct (ctor_dcheck_rejects_success (-1)) as (_ & _ & Hne).
    apply Hne. discriminate.
Defined.

(** ** Ageing *)

Lemma too_old_valid `{PoolEnv} s :
  IsValid s = true -> too_old s = (kMaxSurfaceAge <=? age_ s + 1, aged s).
Proof. intros Hv. unfold too_old. now rewrite Hv. Qed.

Lemma too_old_invalid `{PoolEnv} s :
  IsValid s = false -> too_old s = (true, s).
Proof. intros Hv. unfold too_old. now rewrite Hv. Qed.

Lemma erase_remove_if_too_old `{PoolEnv} l :
  erase_remove_if too_old l = map aged (List.filter survives l).
Proof.
  induction l as [|s l IH]; [reflexivity|].
  simpl. unfold survives at 1. destruct (IsValid s) eqn:Hv.
  - rewrite (too_old_valid _ Hv). simpl.
    destruct (Z.leb_spec kMaxSurfaceAge (age_ s + 1)) as [Hold|Hyoung];
      destruct (Z.ltb_spec (age_ s + 1) kMaxSurfaceAge); try lia;
      simpl; now rewrite IH.
  - rewrite (too_old_invalid _ Hv). simpl. exact IH.
Qed.

Lemma AgeAndCollectOldBuffers_eq `{PoolEnv} p :
  exec AgeAndCollectOldBuffers p =
    exec TraceStats (exec replace_oversized (exec collect_old p)).
Proof.
  unfold AgeAndCollectOldBuffers, exec, mbind, M_bind.
  destruct (collect_old p) as [[] p1]. simpl.
  destruct (replace_oversized p1) as [[] p2]. reflexivity.
Qed.

(** C5, as amended: the filtering pass of [AgeAndCollectOldBuffers] advances
    the age of every valid surface of the pool by exactly one unit; a
    surface that is no longer valid is removed without its age being
    advanced.  A surface is removed by the pass if and only if it is invalid
    or its advanced age has reached [kMaxSurfaceAge]; the surfaces that are
    valid and below the threshold are kept, in order, each with its age
    incremented by exactly 1. *)
Theorem collect_old_ages_valid_surfaces `{PoolEnv} p :
  exec collect_old p =
    set_available (map aged (List.filter survives (available_surfaces_ p))) p /\
  (forall s,
     age_ (aged s) = age_ s + 1 /\
     (IsValid s = true ->
        too_old s = (kMaxSurfaceAge <=? age_ s + 1, aged s)) /\
     (IsValid s = false -> too_old s = (true, s)) /\
     (fst (too_old s) = true <->
        IsValid s = false \/ kMaxSurfaceAge <= age_ s + 1) /\
     (survives s = true <->
        IsValid s = true /\ age_ s + 1 < kMaxSurfaceAge)) /\
  exec AgeAndCollectOldBuffers p =
    exec TraceStats (exec replace_oversized (exec collect_old p)).
Proof.
  split; [|split; [|apply AgeAndCollectOldBuffers_eq]].
  - unfold collect_old. run. now rewrite erase_remove_if_too_old.
  - intros s. split; [reflexivity|].
    split; [apply too_old_valid|]. split; [apply too_old_invalid|].
    split.
    + destruct (IsValid s) eqn:Hv.
      * rewrite (too_old_valid _ Hv). simpl. rewrite Z.leb_le.
        split; [auto|]. intros [Hf|Hold]; [discriminate|exact Hold].
      * rewrite (too_old_invalid _ Hv). simpl. split; auto.
    + unfold survives. rewrite andb_true_iff, Z.ltb_lt. reflexivity.
Qed.

Lemma collect_old_ages_valid_surfaces_witness :
  available_surfaces_
    (exec (@collect_old sample_env)
          (pool_of [surface_a; surface_dead; surface_b]))
    = [aged surface_a; aged surface_b] /\
  @too_old sample_env surface_a = (false, aged surface_a) /\
  @too_old sample_env surface_dead = (true, surface_dead).
Proof.
  destruct (@collect_old_ages_valid_surfaces sample_env
              (pool_of [surface_a; surface_dead; surface_b]))
    as (Hpass & Heach & _).
  split; [|split].
  - rewrite Hpass. reflexivity.
  - destruct (Heach surface_a) as (_ & Hvalid & _).
    rewrite Hvalid; reflexivity.
  - destruct (Heach surface_dead) as (_ & _ & Hdead & _).
    apply Hdead. reflexivity.
Defined.

(** [surface_dead] is in the pool and invalid: the pass removes it and its
    age is still what it was, not one more. *)
Lemma collect_old_skips_invalid_surface :
  In surface_dead (available_surfaces_ (pool_of [surface_a; surface_dead])) /\
  @too_old sample_env surface_dead = (true, surface_dead) /\
  age_ (snd (@too_old sample_env surface_dead)) <> age_ surface_dead + 1.
Proof.
  split; [right; left; reflexivity|]. split; [reflexivity|].
  vm_compute. discriminate.
Qed.

(** ** Replacing one oversized surface *)

Lemma shrinkable_true s : shrinkable s = true <-> replaceable s.
Proof. unfold shrinkable, replaceable. apply andb_true_iff. Qed.

Lemma shrinkable_false s : shrinkable s = false <-> ~ replaceable s.
Proof.
  rewrite <- shrinkable_true. destruct (shrinkable s); split; congruence.
Qed.

Lemma replace_oversized_none `{PoolEnv} p :
  Forall (fun x => shrinkable x = false) (available_surfaces_ p) ->
  replace_oversized p = (tt, p).
Proof.
  intros Hall. apply find_if_None in Hall.
  unfold replace_oversized. run. now rewrite Hall.
Qed.

Lemma replace_oversized_found `{PoolEnv} p l1 x l2 :
  available_surfaces_ p = l1 ++ x :: l2 ->
  Forall (fun y => shrinkable y = false) l1 ->
  shrinkable x = true ->
  exec replace_oversized p =
    let new := make_VulkanSurface (GetSize x) (buffer_id_ p) in
    let p1 := set_buffer_id (wrap_buffer_id (buffer_id_ p + 1))
                            (set_available (l1 ++ l2) p) in
    if IsValid new
    then set_available (l1 ++ l2 ++ [new])
           (set_trace (wrap_size_t (trace_surfaces_created_ p + 1))
                      (trace_surfaces_reused_ p) p1)
    else p1.
Proof.
  intros Hp Hl1 Hx. unfold replace_oversized, exec. run.
  rewrite Hp, (find_if_app _ l1 l2 x Hl1 Hx), lookup_app_length, erase_app.
  rewrite CreateSurface_eq. cbv zeta. cbn [buffer_id_ set_available].
  destruct (IsValid (make_VulkanSurface (GetSize x) (buffer_id_ p)));
    [|reflexivity].
  unfold set_available. simpl. now rewrite <- app_assoc.
Qed.

(** C6: after the filtering pass [AgeAndCollectOldBuffers] replaces at most
    one surface.  If no remaining surface is oversized with a stable size
    history, the remaining surfaces are left as they are and nothing is
    created.  Otherwise the first such surface is erased, whatever follows
    it, and one surface of the same size is created: a valid one is pushed
    to the back of the vector, an invalid one is not and the pool is one
    surface smaller; either way a single creation takes place. *)
Theorem AgeAndCollectOldBuffers_replaces_one `{PoolEnv} p :
  (Forall (fun y => ~ replaceable y)
          (available_surfaces_ (exec collect_old p)) ->
     available_surfaces_ (exec AgeAndCollectOldBuffers p)
       = available_surfaces_ (exec collect_old p) /\
     buffer_id_ (exec AgeAndCollectOldBuffers p) = buffer_id_ p) /\
  (forall l1 x l2,
     available_surfaces_ (exec collect_old p) = l1 ++ x :: l2 ->
     Forall (fun y => ~ replaceable y) l1 ->
     replaceable x ->
     GetSize (make_VulkanSurface (GetSize x) (buffer_id_ p)) = GetSize x /\
     available_surfaces_ (exec AgeAndCollectOldBuffers p)
       = l1 ++ l2 ++
         (if IsValid (make_VulkanSurface (GetSize x) (buffer_id_ p))
          then [make_VulkanSurface (GetSize x) (buffer_id_ p)] else []) /\
     buffer_id_ (exec AgeAndCollectOldBuffers p)
       = wrap_buffer_id (buffer_id_ p + 1)).
Proof.
  rewrite AgeAndCollectOldBuffers_eq.
  assert (Hid : buffer_id_ (exec collect_old p) = buffer_id_ p) by reflexivity.
  split.
  - intros Hall.
    assert (Hsame : exec replace_oversized (exec collect_old p)
                    = exec collect_old p).
    { unfold exec at 1. rewrite replace_oversized_none; [reflexivity|].
      eapply Forall_impl; [exact Hall|]. intros y. apply shrinkable_false. }
    rewrite Hsame. split; [reflexivity|exact Hid].
  - intros l1 x l2 Hl Hl1 Hx. split; [reflexivity|].
    rewrite (replace_oversized_found _ l1 x l2 Hl).
    + cbv zeta. rewrite Hid.
      destruct (IsValid (make_VulkanSurface (GetSize x) (buffer_id_ p)));
        simpl; split; try reflexivity.
      now rewrite app_nil_r.
    + eapply Forall_impl; [exact Hl1|]. intros y. apply shrinkable_false.
    + now apply shrinkable_true.
Qed.

Lemma AgeAndCollectOldBuffers_replaces_one_witness :
  available_surfaces_
    (exec (@AgeAndCollectOldBuffers sample_env)
          (pool_of [surface_a; surface_b; surface_c]))
  = [aged surface_a; aged surface_c; @make_VulkanSurface sample_env size_b 7]
  /\
  available_surfaces_
    (exec (@AgeAndCollectOldBuffers failing_env)
          (pool_of [surface_a; surface_b; surface_c]))
  = [aged surface_a; aged surface_c]
  /\
  available_surfaces_
    (exec (@AgeAndCollectOldBuffers sample_env) (pool_of [surface_a]))
  = [aged surface_a].
Proof.
  split; [|split].
  - destruct (@AgeAndCollectOldBuffers_replaces_one sample_env
                (pool_of [surface_a; surface_b; surface_c])) as [_ Hone].
    destruct (Hone [aged surface_a] (aged surface_b) [aged surface_c])
      as (_ & Hpool & _).
    + reflexivity.
    + constructor; [|constructor]. intros [Hover _]. discriminate Hover.
    + split; reflexivity.
    + exact Hpool.
  - destruct (@AgeAndCollectOldBuffers_replaces_one failing_env
                (pool_of [surface_a; surface_b; surface_c])) as [_ Hone].
    destruct (Hone [aged surface_a] (aged surface_b) [aged surface_c])
      as (_ & Hpool & _).
    + reflexivity.
    + constructor; [|constructor]. intros [Hover _]. discriminate Hover.
    + split; reflexivity.
    + exact Hpool.
  - destruct (@AgeAndCollectOldBuffers_replaces_one sample_env
                (pool_of [surface_a])) as [Hnone _].
    destruct Hnone as [Hpool _].
    + constructor; [|constructor]. intros [Hover _]. discriminate Hover.
    + exact Hpool.
Defined.

(** ** Shrinking to fit *)

Lemma reset_oversized_eq l :
  reset_oversized l =
    (map (fun s => if IsOversized s then None else Some s) l,
     map GetSize (List.filter IsOversized l)).
Proof.
  induction l as [|s l IH]; [reflexivity|].
  simpl. rewrite IH. destruct (IsOversized s); reflexivity.
Qed.

Lemma erase_remove_null_reset l :
  erase_remove_null (map (fun s => if IsOversized s then None else Some s) l)
  = List.filter (fun s => negb (IsOversized s)) l.
Proof.
  induction l as [|s l IH]; [reflexivity|].
  simpl. destruct (IsOversized s); simpl; congruence.
Qed.

Lemma recreate_cons `{PoolEnv} size sizes p :
  exec (recreate (size :: sizes)) p =
    exec (recreate sizes)
      (match result (CreateSurface size) p with
       | Some s =>
           set_available
             (available_surfaces_ (exec (CreateSurface size) p) ++ [s])
             (exec (CreateSurface size) p)
       | None => exec (CreateSurface size) p
       end).
Proof.
  unfold exec, result. simpl. unfold mbind, M_bind.
  destruct (CreateSurface size p) as [[s|] p1]; reflexivity.
Qed.

Lemma recreate_available `{PoolEnv} sizes : forall p,
  available_surfaces_ (exec (recreate sizes) p) =
    available_surfaces_ p
    ++ List.filter IsValid (constructed (buffer_id_ p) sizes).
Proof.
  induction sizes as [|size sizes IH]; intros p.
  - simpl. now rewrite app_nil_r.
  - rewrite recreate_cons, IH. unfold result, exec.
    rewrite CreateSurface_eq. cbv zeta. cbn [constructed List.filter].
    destruct (IsValid (make_VulkanSurface size (buffer_id_ p)));
      cbn [fst snd set_available set_trace set_buffer_id
           available_surfaces_ buffer_id_].
    + now rewrite <- app_assoc.
    + reflexivity.
Qed.

Lemma constructed_sizes `{PoolEnv} sizes : forall id,
  map GetSize (constructed id sizes) = sizes.
Proof.
  induction sizes as [|size sizes IH]; intros id; simpl; [reflexivity|].
  now rewrite IH.
Qed.

Lemma filter_all_valid (l : list VulkanSurface) :
  Forall (fun s => IsValid s = true) l -> List.filter IsValid l = l.
Proof.
  induction 1 as [|s l Hs _ IH]; simpl; [reflexivity|].
  now rewrite Hs, IH.
Qed.

Lemma filter_split_length {A} (f : A -> bool) (l : list A) :
  (length (List.filter (fun x => negb (f x)) l) + length (List.filter f l)
   = length l)%nat.
Proof.
  induction l as [|x l IH]; simpl; [reflexivity|].
  destruct (f x); simpl; lia.
Qed.

Lemma filter_split_perm {A} (f : A -> bool) (l : list A) :
  Permutation (List.filter (fun x => negb (f x)) l ++ List.filter f l) l.
Proof.
  induction l as [|x l IH]; simpl; [reflexivity|].
  destruct (f x); simpl.
  - symmetry. apply Permutation_cons_app. now symmetry.
  - now constructor.
Qed.

Lemma ShrinkToFit_eq `{PoolEnv} p :
  exec ShrinkToFit p =
    exec TraceStats
      (exec (recreate (map GetSize
                         (List.filter IsOversized (available_surfaces_ p))))
            (set_available
               (List.filter (fun s => negb (IsOversized s))
                            (available_surfaces_ p)) p)).
Proof.
  unfold ShrinkToFit, exec at 1. run.
  rewrite reset_oversized_eq, erase_remove_null_reset.
  unfold exec.
  destruct (recreate _ _) as [[] p1]. reflexivity.
Qed.

Lemma CreateSurface_logged_eq `{PoolEnv} size p log :
  CreateSurface_logged size (p, log) =
    (result (CreateSurface size) p,
     (exec (CreateSurface size) p,
      log ++ replacement_events (make_VulkanSurface size (buffer_id_ p)))).
Proof.
  unfold CreateSurface_logged, replacement_events, result, exec.
  rewrite CreateSurface_eq. cbv zeta.
  destruct (IsValid (make_VulkanSurface size (buffer_id_ p)));
    cbn [negb fst snd]; [reflexivity|].
  now rewrite <- app_assoc.
Qed.

Lemma reset_oversized_logged_eq l :
  reset_oversized_logged l =
    (reset_oversized l, map EvDestroy (List.filter IsOversized l)).
Proof.
  induction l as [|s l IH]; [reflexivity|].
  cbn [reset_oversized_logged reset_oversized]. rewrite IH.
  destruct (reset_oversized l) as [slots sizes].
  destruct (IsOversized s) eqn:Hs; cbn [List.filter]; rewrite Hs; reflexivity.
Qed.

Lemma recreate_logged_eq `{PoolEnv} sizes : forall p log,
  recreate_logged sizes (p, log) =
    (exec (recreate sizes) p,
     log ++ flat_map replacement_events (constructed (buffer_id_ p) sizes)).
Proof.
  induction sizes as [|size sizes IH]; intros p log.
  - cbn [recreate_logged constructed flat_map]. now rewrite app_nil_r.
  - cbn [recreate_logged]. rewrite CreateSurface_logged_eq.
    rewrite IH, recreate_cons. cbn [constructed flat_map].
    rewrite <- app_assoc.
    set (q := match result (CreateSurface size) p with
              | Some s =>
                  set_available
                    (available_surfaces_ (exec (CreateSurface size) p) ++ [s])
                    (exec (CreateSurface size) p)
              | None => exec (CreateSurface size) p
              end).
    assert (Hid : buffer_id_ q = wrap_buffer_id (buffer_id_ p + 1)).
    { subst q. unfold result, exec. rewrite CreateSurface_eq. cbv zeta.
      destruct (IsValid _); reflexivity. }
    now rewrite Hid.
Qed.

(** C7: [ShrinkToFit] first resets every oversized surface of the pool and
    records its size, leaving the other surfaces in place; only then, from
    a pool that holds none of the oversized surfaces, does it create one
    surface per recorded size, in order.  A valid new surface is pushed to
    the back of the vector; a failed creation leaves the pool one surface
    short.  When every replacement succeeds the pool holds as many surfaces
    as before, with the same sizes up to order.  In the log of object
    lifetimes the destructions of the oversized surfaces come first, in
    vector order, and every construction comes after all of them. *)
Theorem ShrinkToFit_replaces_every_oversized `{PoolEnv} p :
  let kept := List.filter (fun s => negb (IsOversized s))
                          (available_surfaces_ p) in
  let sizes := map GetSize (List.filter IsOversized (available_surfaces_ p)) in
  let made := constructed (buffer_id_ p) sizes in
  exec ShrinkToFit p =
    exec TraceStats (exec (recreate sizes) (set_available kept p)) /\
  map GetSize made = sizes /\
  available_surfaces_ (exec ShrinkToFit p) = kept ++ List.filter IsValid made /\
  (length (available_surfaces_ (exec ShrinkToFit p))
   + length (List.filter (fun s => negb (IsValid s)) made)
   = length (available_surfaces_ p))%nat /\
  (Forall (fun s => IsValid s = true) made ->
     length (available_surfaces_ (exec ShrinkToFit p))
       = length (available_surfaces_ p) /\
     Permutation (map GetSize (available_surfaces_ (exec ShrinkToFit p)))
                 (map GetSize (available_surfaces_ p))) /\
  fst (ShrinkToFit_logged p) = exec ShrinkToFit p /\
  snd (ShrinkToFit_logged p) =
    map EvDestroy (List.filter IsOversized (available_surfaces_ p))
    ++ flat_map replacement_events made /\
  (forall i s,
     snd (ShrinkToFit_logged p) !! i = Some (EvConstruct s) ->
     (length (List.filter IsOversized (available_surfaces_ p)) <= i)%nat) /\
  (forall i x,
     List.filter IsOversized (available_surfaces_ p) !! i = Some x ->
     snd (ShrinkToFit_logged p) !! i = Some (EvDestroy x)).
Proof.
  intros kept sizes made.
  assert (Hsizes : map GetSize made = sizes) by apply constructed_sizes.
  assert (Hpool : available_surfaces_ (exec ShrinkToFit p)
                  = kept ++ List.filter IsValid made).
  { rewrite ShrinkToFit_eq. fold kept sizes.
    change (available_surfaces_ (exec TraceStats ?q))
      with (available_surfaces_ q).
    now rewrite recreate_available. }
  assert (Hmade : length made
                  = length (List.filter IsOversized (available_surfaces_ p))).
  { rewrite <- (length_map GetSize made), Hsizes. unfold sizes.
    apply length_map. }
  assert (Hlogged : ShrinkToFit_logged p =
    (exec ShrinkToFit p,
     map EvDestroy (List.filter IsOversized (available_surfaces_ p))
     ++ flat_map replacement_events made)).
  { unfold ShrinkToFit_logged.
    rewrite reset_oversized_logged_eq, reset_oversized_eq.
    rewrite erase_remove_null_reset, recreate_logged_eq.
    now rewrite ShrinkToFit_eq. }
  split; [apply ShrinkToFit_eq|]. split; [exact Hsizes|].
  split; [exact Hpool|]. split; [|split].
  - rewrite Hpool, length_app.
    pose proof (filter_split_length IsOversized (available_surfaces_ p)).
    pose proof (filter_split_length IsValid made).
    fold kept in H0. lia.
  - intros Hall. rewrite Hpool, (filter_all_valid _ Hall). split.
    + rewrite length_app, Hmade. apply filter_split_length.
    + rewrite map_app, Hsizes. unfold sizes, kept. rewrite <- map_app.
      apply Permutation_map, filter_split_perm.
  - rewrite Hlogged. cbn [fst snd].
    split; [reflexivity|]. split; [reflexivity|]. split.
    + intros i s Hi.
      destruct (Nat.le_gt_cases
                  (length (List.filter IsOversized (available_surfaces_ p))) i)
        as [Hle|Hlt]; [exact Hle|exfalso].
      rewrite lookup_app_l in Hi by now rewrite length_map.
      rewrite list_lookup_fmap in Hi.
      destruct (List.filter IsOversized (available_surfaces_ p) !! i);
        discriminate Hi.
    + intros i x Hi.
      rewrite lookup_app_l
        by (rewrite length_map; eapply lookup_lt_Some; exact Hi).
      now rewrite list_lookup_fmap, Hi.
Qed.

Lemma ShrinkToFit_replaces_every_oversized_witness :
  map GetSize
    (available_surfaces_
       (exec (@ShrinkToFit sample_env)
             (pool_of [surface_b; surface_a; surface_c])))
  = [size_a; size_b; size_a] /\
  Permutation
    (map GetSize
       (available_surfaces_
          (exec (@ShrinkToFit sample_env)
                (pool_of [surface_b; surface_a; surface_c]))))
    [size_b; size_a; size_a] /\
  snd (@ShrinkToFit_logged sample_env
         (pool_of [surface_b; surface_a; surface_c]))
  = [EvDestroy surface_b; EvDestroy surface_c;
     EvConstruct (@make_VulkanSurface sample_env size_b 7);
     EvConstruct (@make_VulkanSurface sample_env size_a 8)] /\
  snd (@ShrinkToFit_logged sample_env
         (pool_of [surface_b; surface_a; surface_c])) !! 1%nat
  = Some (EvDestroy surface_c).
Proof.
  destruct (@ShrinkToFit_replaces_every_oversized sample_env
              (pool_of [surface_b; surface_a; surface_c]))
    as (_ & _ & Hpool & _ & Hall & _ & Hlog & _ & Hfirst).
  split; [|split; [|split]].
  - rewrite Hpool. reflexivity.
  - apply Hall. repeat constructor.
  - rewrite Hlog. reflexivity.
  - apply Hfirst. reflexivity.
Defined.

(** ** The capacity bound *)

Lemma recreate_length `{PoolEnv} sizes p :
  (length (available_surfaces_ (exec (recreate sizes) p))
   <= length (available_surfaces_ p) + length sizes)%nat.
Proof.
  rewrite recreate_available, length_app.
  pose proof (filter_split_length IsValid (constructed (buffer_id_ p) sizes)).
  rewrite <- (length_map GetSize (constructed _ _)), constructed_sizes in H0.
  lia.
Qed.

Lemma GetCachedOrCreateSurface_length `{PoolEnv} size p :
  (length (available_surfaces_ (exec (GetCachedOrCreateSurface size) p))
   <= length (available_surfaces_ p))%nat.
Proof.
  destruct (GetCachedOrCreateSurface_cases size p)
    as [(l1 & s & l2 & Hp & Hl1 & Hs)|Hall].
  - unfold exec.
    rewrite (GetCachedOrCreateSurface_hit _ _ _ _ _ Hp Hl1 Hs), Hp.
    cbn [snd set_available available_surfaces_].
    rewrite !length_app. cbn [length]. lia.
  - unfold exec. rewrite (GetCachedOrCreateSurface_miss _ _ Hall).
    fold (exec (CreateSurface size) p).
    now rewrite CreateSurface_available.
Qed.

Lemma RecycleSurface_within_capacity `{PoolEnv} s p :
  within_capacity p -> within_capacity (exec (RecycleSurface s) p).
Proof.
  unfold within_capacity, exec. intros Hcap.
  rewrite RecycleSurface_eq. cbn [snd].
  destruct (IsValid s); [|exact Hcap].
  destruct (Z.ltb_spec (Z.of_nat (length (available_surfaces_ p)))
                       kMaxSurfaces) as [Hroom|Hfull];
    cbn [set_trace set_available available_surfaces_]; [|exact Hcap].
  rewrite length_app. cbn [length]. lia.
Qed.

Lemma AgeAndCollectOldBuffers_length `{PoolEnv} p :
  (length (available_surfaces_ (exec AgeAndCollectOldBuffers p))
   <= length (available_surfaces_ p))%nat.
Proof.
  rewrite AgeAndCollectOldBuffers_eq.
  change (available_surfaces_ (exec TraceStats ?q))
    with (available_surfaces_ q).
  pose proof (erase_remove_if_length_le too_old (available_surfaces_ p))
    as Hold.
  change (erase_remove_if too_old (available_surfaces_ p))
    with (available_surfaces_ (exec collect_old p)) in Hold.
  set (q := exec collect_old p) in *.
  destruct (find_if shrinkable (available_surfaces_ q)) as [i|] eqn:Hf.
  - apply find_if_Some in Hf as (l1 & x & l2 & Hq & _ & Hl1 & Hx).
    rewrite (replace_oversized_found _ l1 x l2 Hq Hl1 Hx). cbv zeta.
    rewrite Hq, length_app in Hold. cbn [length] in Hold.
    destruct (IsValid _);
      cbn [set_available set_trace set_buffer_id available_surfaces_];
      rewrite !length_app; cbn [length]; lia.
  - apply find_if_None in Hf. unfold exec at 1.
    rewrite (replace_oversized_none _ Hf). cbn [snd]. lia.
Qed.

Lemma ShrinkToFit_length `{PoolEnv} p :
  (length (available_surfaces_ (exec ShrinkToFit p))
   <= length (available_surfaces_ p))%nat.
Proof.
  rewrite ShrinkToFit_eq.
  change (available_surfaces_ (exec TraceStats ?q))
    with (available_surfaces_ q).
  pose proof (recreate_length
    (map GetSize (List.filter IsOversized (available_surfaces_ p)))
    (set_available
       (List.filter (fun s => negb (IsOversized s)) (available_surfaces_ p))
       p)) as Hlen.
  cbn [set_available available_surfaces_] in Hlen.
  rewrite length_map in Hlen.
  pose proof (filter_split_length IsOversized (available_surfaces_ p)).
  lia.
Qed.

(** C4: every operation of the pool (acquiring, creating, submitting,
    recycling a pending or a given surface, ageing, shrinking to fit,
    reporting the statistics) keeps the number of available surfaces within
    [kMaxSurfaces] when it was within [kMaxSurfaces] before. *)
Theorem capacity_preserved `{PoolEnv} (o : operation) (p : VulkanSurfacePool) :
  Z.of_nat (length (available_surfaces_ p)) <= kMaxSurfaces ->
  Z.of_nat (length (available_surfaces_ (run_op o p))) <= kMaxSurfaces.
Proof.
  intros Hcap.
  destruct o as [size|size|size|o|key|s| | |]; cbn [run_op].
  - rewrite AcquireSurface_exec.
    pose proof (GetCachedOrCreateSurface_length size p). lia.
  - pose proof (GetCachedOrCreateSurface_length size p). lia.
  - now rewrite CreateSurface_available.
  - destruct o as [s|]; [|exact Hcap].
    unfold exec. rewrite SubmitSurface_eq. cbn [snd].
    destruct (pending_surfaces_ p !! self s); exact Hcap.
  - unfold exec. rewrite RecyclePendingSurface_eq.
    destruct (pending_surfaces_ p !! key) as [s|]; [|exact Hcap].
    apply (RecycleSurface_within_capacity s
             (set_pending (delete key (pending_surfaces_ p)) p)).
    exact Hcap.
  - now apply RecycleSurface_within_capacity.
  - pose proof (AgeAndCollectOldBuffers_length p). lia.
  - pose proof (ShrinkToFit_length p). lia.
  - exact Hcap.
Qed.

Lemma capacity_preserved_witness :
  @within_capacity sample_env
    (@run_op sample_env (OpRecycleSurface surface_b) full_pool) /\
  @within_capacity sample_env
    (@run_op sample_env OpShrinkToFit (pool_of [surface_b; surface_c])).
Proof.
  split.
  - apply (@capacity_preserved sample_env). unfold within_capacity.
    simpl. lia.
  - apply (@capacity_preserved sample_env). unfold within_capacity.
    simpl. lia.
Defined.

(** ** Identifiers *)

(** X1: every call of [CreateSurface], whether the new surface is valid or
    not, moves the identifier counter on by one; a surface it returns carries
    the identifier the pool held before the call; and two calls in a row
    never hand out the same identifier. *)
Theorem CreateSurface_identifiers `{PoolEnv} size1 size2 p :
  buffer_id_ (exec (CreateSurface size1) p)
    = wrap_buffer_id (buffer_id_ p + 1) /\
  (forall a, result (CreateSurface size1) p = Some a ->
             buffer_id a = buffer_id_ p /\ GetSize a = size1) /\
  (1 < buffer_id_modulus ->
   0 <= buffer_id_ p < buffer_id_modulus ->
   forall a b,
     result (CreateSurface size1) p = Some a ->
     result (CreateSurface size2) (exec (CreateSurface size1) p) = Some b ->
     buffer_id a <> buffer_id b).
Proof.
  assert (Hnext : buffer_id_ (exec (CreateSurface size1) p)
                  = wrap_buffer_id (buffer_id_ p + 1)).
  { unfold exec. rewrite CreateSurface_eq. cbv zeta.
    destruct (IsValid _); reflexivity. }
  assert (Hid : forall size q a, result (CreateSurface size) q = Some a ->
                                 buffer_id a = buffer_id_ q /\ GetSize a = size).
  { intros size q a. unfold result. rewrite CreateSurface_eq. cbv zeta.
    destruct (IsValid _); cbn [fst]; [|discriminate].
    intros [= <-]. split; reflexivity. }
  split; [exact Hnext|]. split; [apply Hid|].
  intros Hmod Hrange a b Ha Hb.
  apply Hid in Ha as [Ha _]. apply Hid in Hb as [Hb _].
  rewrite Ha, Hb, Hnext. unfold wrap_buffer_id.
  destruct (Z.eq_dec (buffer_id_ p + 1) buffer_id_modulus) as [Hlast|Hin].
  - rewrite Hlast, Z.mod_same by lia. lia.
  - rewrite Z.mod_small by lia. lia.
Qed.

Lemma CreateSurface_identifiers_witness :
  buffer_id (@make_VulkanSurface sample_env size_a 7)
    <> buffer_id (@make_VulkanSurface sample_env size_b 8).
Proof.
  destruct (@CreateSurface_identifiers sample_env size_a size_b (pool_of []))
    as (_ & _ & Hdistinct).
  apply Hdistinct.
  - reflexivity.
  - simpl. split; [discriminate|reflexivity].
  - reflexivity.
  - reflexivity.
Defined.

(** ** The counters after each operation *)

Lemma TraceStats_exec (p : VulkanSurfacePool) :
  exec TraceStats p = set_trace 0 0 p.
Proof. reflexivity. Qed.

Lemma run_op_reused `{PoolEnv} (o : operation) p :
  trace_surfaces_reused_ (run_op o p) = trace_surfaces_reused_ p \/
  trace_surfaces_reused_ (run_op o p) = 0.
Proof.
  assert (Hget : forall size,
    trace_surfaces_reused_ (exec (GetCachedOrCreateSurface size) p)
    = trace_surfaces_reused_ p).
  { intros size.
    destruct (GetCachedOrCreateSurface_cases size p)
      as [(l1 & s & l2 & Hp & Hl1 & Hs)|Hall]; unfold exec.
    - now rewrite (GetCachedOrCreateSurface_hit _ _ _ _ _ Hp Hl1 Hs).
    - rewrite (GetCachedOrCreateSurface_miss _ _ Hall), CreateSurface_eq.
      cbv zeta. destruct (IsValid _); reflexivity. }
  assert (Hrec : forall s q,
    trace_surfaces_reused_ (exec (RecycleSurface s) q)
      = trace_surfaces_reused_ q \/
    trace_surfaces_reused_ (exec (RecycleSurface s) q) = 0).
  { intros s q. unfold exec. rewrite RecycleSurface_eq. cbn [snd].
    destruct (IsValid s); [right|left]; reflexivity. }
  destruct o as [size|size|size|o|key|s| | |]; cbn [run_op].
  - left. rewrite AcquireSurface_exec. apply Hget.
  - left. apply Hget.
  - left. unfold exec. rewrite CreateSurface_eq. cbv zeta.
    destruct (IsValid _); reflexivity.
  - left. destruct o as [s|]; [|reflexivity].
    unfold exec. rewrite SubmitSurface_eq. cbn [snd].
    destruct (pending_surfaces_ p !! self s); reflexivity.
  - unfold exec. rewrite RecyclePendingSurface_eq.
    destruct (pending_surfaces_ p !! key) as [s|]; [|left; reflexivity].
    apply (Hrec s (set_pending (delete key (pending_surfaces_ p)) p)).
  - apply Hrec.
  - right. now rewrite AgeAndCollectOldBuffers_eq.
  - right. now rewrite ShrinkToFit_eq.
  - right. reflexivity.
Qed.

(** X2: no operation of the pool ever increments the "reused" counter: after
    any operation it is what it was or zero, and along every run of
    operations from a new pool it is zero, however many surfaces were
    reused. *)
Theorem reused_counter_never_counts `{PoolEnv} :
  (forall o p,
     trace_surfaces_reused_ (run_op o p) = trace_surfaces_reused_ p \/
     trace_surfaces_reused_ (run_op o p) = 0) /\
  (forall os, trace_surfaces_reused_ (run_ops os empty_pool) = 0).
Proof.
  split; [apply run_op_reused|].
  intros os. unfold run_ops.
  assert (Hinv : forall p, trace_surfaces_reused_ p = 0 ->
            trace_surfaces_reused_ (fold_left (fun q o => run_op o q) os p) = 0).
  { induction os as [|o os IH]; intros p Hp; cbn [fold_left]; [exact Hp|].
    apply IH. destruct (run_op_reused o p) as [Hsame|Hzero]; congruence. }
  now apply Hinv.
Qed.

(** X3: the maintenance passes end by resetting the statistics, so whatever
    they created is not visible afterwards: after [AgeAndCollectOldBuffers]
    and after [ShrinkToFit] both counters are zero.  [RecycleSurface] resets
    them for a valid surface, whether it is cached or dropped, and leaves
    them alone for an invalid one. *)
Theorem counters_reset_by_maintenance `{PoolEnv} p :
  counters (exec AgeAndCollectOldBuffers p) = (0, 0) /\
  counters (exec ShrinkToFit p) = (0, 0) /\
  (forall s, IsValid s = true ->
             counters (exec (RecycleSurface s) p) = (0, 0)) /\
  (forall s, IsValid s = false ->
             counters (exec (RecycleSurface s) p) = counters p).
Proof.
  split; [now rewrite AgeAndCollectOldBuffers_eq|].
  split; [now rewrite ShrinkToFit_eq|].
  split; intros s Hs; unfold exec; rewrite RecycleSurface_eq, Hs; reflexivity.
Qed.

Lemma counters_reset_by_maintenance_witness :
  counters (exec (@RecycleSurface tiny_env surface_b) (pool_of [surface_a]))
    = (0, 0) /\
  counters (exec (@RecycleSurface sample_env surface_dead)
                 (pool_of [surface_a])) = (2, 0).
Proof.
  destruct (@counters_reset_by_maintenance tiny_env (pool_of [surface_a]))
    as (_ & _ & Hvalid & _).
  destruct (@counters_reset_by_maintenance sample_env (pool_of [surface_a]))
    as (_ & _ & _ & Hdead).
  split.
  - apply Hvalid. reflexivity.
  - rewrite Hdead; reflexivity.
Defined.

(** ** Submitting, then the completion signal *)

(** X4: submitting a surface under a key that is not pending and then
    running its completion callback leaves the pending surfaces as they were
    before the submit, and the pool as [RecycleSurface] on that surface
    leaves it; all that remains of the submit is the record of the
    callback. *)
Theorem submit_then_signal `{PoolEnv} (s : VulkanSurface) p :
  pending_surfaces_ p !! self s = None ->
  exec (RecyclePendingSurface (self s)) (exec (SubmitSurface (Some s)) p)
    = exec (RecycleSurface s) (add_writes_finished (self s) p) /\
  pending_surfaces_
    (exec (RecyclePendingSurface (self s)) (exec (SubmitSurface (Some s)) p))
    = pending_surfaces_ p.
Proof.
  intros Hfresh.
  assert (Heq :
    exec (RecyclePendingSurface (self s)) (exec (SubmitSurface (Some s)) p)
    = exec (RecycleSurface s) (add_writes_finished (self s) p)).
  { unfold exec at 2. rewrite SubmitSurface_eq, Hfresh. cbn [snd].
    unfold exec at 1. rewrite RecyclePendingSurface_eq.
    cbn [add_writes_finished set_pending pending_surfaces_].
    rewrite lookup_insert_eq.
    unfold set_pending, add_writes_finished.
    cbn [available_surfaces_ pending_surfaces_ buffer_id_
         trace_surfaces_created_ trace_surfaces_reused_ writes_finished_].
    rewrite delete_insert_id by exact Hfresh. reflexivity. }
  split; [exact Heq|].
  rewrite Heq, RecycleSurface_pending. reflexivity.
Qed.

Lemma submit_then_signal_witness :
  exec (@RecyclePendingSurface sample_env 8192)
       (exec (SubmitSurface (Some surface_b)) (pool_of [surface_a]))
  = mkPool [surface_a; surface_b] ∅ 7 0 0 [8192].
Proof.
  destruct (@submit_then_signal sample_env surface_b (pool_of [surface_a]))
    as [Heq _]; [reflexivity|].
  change 8192 with (self surface_b) at 1. rewrite Heq.
  vm_compute. reflexivity.
Defined.

Lemma RecycleSurface_submitted `{PoolEnv} s p :
  submitted (exec (RecycleSurface s) p) = submitted p.
Proof.
  unfold exec. rewrite RecycleSurface_eq. cbn [snd].
  destruct (IsValid s); [|reflexivity]. destruct (_ <? _); reflexivity.
Qed.

Lemma recreate_submitted `{PoolEnv} sizes : forall p,
  submitted (exec (recreate sizes) p) = submitted p.
Proof.
  induction sizes as [|size sizes IH]; intros p; [reflexivity|].
  rewrite recreate_cons, IH. unfold result, exec.
  rewrite CreateSurface_eq. cbv zeta. destruct (IsValid _); reflexivity.
Qed.

Lemma run_op_submitted `{PoolEnv} (o : operation) p :
  touches_pending o = false -> submitted (run_op o p) = submitted p.
Proof.
  intros Ho.
  assert (Hget : forall size,
    submitted (exec (GetCachedOrCreateSurface size) p) = submitted p).
  { intros size.
    destruct (GetCachedOrCreateSurface_cases size p)
      as [(l1 & s & l2 & Hp & Hl1 & Hs)|Hall]; unfold exec.
    - now rewrite (GetCachedOrCreateSurface_hit _ _ _ _ _ Hp Hl1 Hs).
    - rewrite (GetCachedOrCreateSurface_miss _ _ Hall), CreateSurface_eq.
      cbv zeta. destruct (IsValid _); reflexivity. }
  destruct o as [size|size|size|o|key|s| | |]; cbn [run_op];
    try discriminate Ho.
  - rewrite AcquireSurface_exec. apply Hget.
  - apply Hget.
  - unfold exec. rewrite CreateSurface_eq. cbv zeta.
    destruct (IsValid _); reflexivity.
  - apply RecycleSurface_submitted.
  - rewrite AgeAndCollectOldBuffers_eq, TraceStats_exec.
    change (submitted (set_trace 0 0 ?q)) with (submitted q).
    set (q := exec collect_old p).
    assert (Hq : submitted q = submitted p) by reflexivity.
    rewrite <- Hq.
    destruct (find_if shrinkable (available_surfaces_ q)) as [i|] eqn:Hf.
    + apply find_if_Some in Hf as (l1 & x & l2 & Hl & _ & Hl1 & Hx).
      rewrite (replace_oversized_found _ l1 x l2 Hl Hl1 Hx). cbv zeta.
      destruct (IsValid _); reflexivity.
    + apply find_if_None in Hf. unfold exec at 1.
      now rewrite (replace_oversized_none _ Hf).
  - rewrite ShrinkToFit_eq, TraceStats_exec.
    change (submitted (set_trace 0 0 ?q)) with (submitted q).
    now rewrite recreate_submitted.
  - reflexivity.
Qed.

(** X5: the pending surfaces change only through [SubmitSurface] and
    [RecyclePendingSurface], and then only at one key: every other operation
    leaves them untouched, a submit leaves every key but the address of the
    submitted surface as it was, and a completion signal every key but its
    own. *)
Theorem pending_changes_only_at_one_key `{PoolEnv} p :
  (forall o, touches_pending o = false ->
             pending_surfaces_ (run_op o p) = pending_surfaces_ p) /\
  (forall (s : VulkanSurface) key, key <> self s ->
     pending_surfaces_ (exec (SubmitSurface (Some s)) p) !! key
       = pending_surfaces_ p !! key) /\
  (forall key key', key' <> key ->
     pending_surfaces_ (exec (RecyclePendingSurface key) p) !! key'
       = pending_surfaces_ p !! key').
Proof.
  split; [|split].
  - intros o Ho. pose proof (run_op_submitted o p Ho) as Hsub.
    unfold submitted in Hsub. congruence.
  - intros s key Hkey. unfold exec. rewrite SubmitSurface_eq. cbn [snd].
    destruct (pending_surfaces_ p !! self s); [reflexivity|].
    cbn [add_writes_finished set_pending pending_surfaces_].
    now rewrite lookup_insert_ne by congruence.
  - intros key key' Hkey. unfold exec. rewrite RecyclePendingSurface_eq.
    destruct (pending_surfaces_ p !! key) as [s|]; [|reflexivity].
    fold (exec (RecycleSurface s)
               (set_pending (delete key (pending_surfaces_ p)) p)).
    rewrite RecycleSurface_pending. cbn [set_pending pending_surfaces_].
    now rewrite lookup_delete_ne by congruence.
Qed.

Lemma pending_changes_only_at_one_key_witness :
  pending_surfaces_ (@run_op sample_env OpShrinkToFit pool_with_pending)
    = {[ 8192 := surface_b ]} /\
  pending_surfaces_ (exec (SubmitSurface (Some surface_c)) pool_with_pending)
    !! 8192 = Some surface_b /\
  pending_surfaces_
    (exec (@RecyclePendingSurface sample_env 4096) pool_with_pending)
    !! 8192 = Some surface_b.
Proof.
  destruct (@pending_changes_only_at_one_key sample_env pool_with_pending)
    as (Hother & Hsubmit & Hsignal).
  split; [|split].
  - rewrite Hother; reflexivity.
  - rewrite Hsubmit; [reflexivity|discriminate].
  - rewrite Hsignal; [reflexivity|discriminate].
Defined.

(** ** Recycling, then acquiring *)

(** X6: a valid surface recycled into a pool with room is the surface the
    next request for its size gets back, provided no surface cached before
    it answers that request; the pool is then what it was before the
    recycling, with the counters reset. *)
Theorem recycled_surface_is_reused `{PoolEnv} (s : VulkanSurface) p :
  IsValid s = true ->
  Z.of_nat (length (available_surfaces_ p)) < kMaxSurfaces ->
  Forall (fun x => ~ matches (GetSize s) x) (available_surfaces_ p) ->
  GetCachedOrCreateSurface (GetSize s) (exec (RecycleSurface s) p)
    = (Some s, set_trace 0 0 p).
Proof.
  intros Hvalid Hroom Hnone.
  unfold exec. rewrite RecycleSurface_eq, Hvalid. cbn [snd].
  apply Z.ltb_lt in Hroom. rewrite Hroom.
  rewrite (GetCachedOrCreateSurface_hit (GetSize s) _
             (available_surfaces_ p) s []).
  - rewrite app_nil_r. now destruct p.
  - reflexivity.
  - now apply Forall_exact_match_false.
  - apply exact_match_true. now split.
Qed.

Lemma recycled_surface_is_reused_witness :
  @GetCachedOrCreateSurface sample_env size_b
    (exec (@RecycleSurface sample_env surface_b) (pool_of [surface_a]))
  = (Some surface_b, mkPool [surface_a] ∅ 7 0 0 []).
Proof.
  apply (@recycled_surface_is_reused sample_env surface_b
           (pool_of [surface_a])).
  - reflexivity.
  - simpl. lia.
  - constructor; [|constructor]. intros [_ Hsize]. discriminate Hsize.
Defined.

(** ** What acquiring hands out and what it leaves behind *)

Lemma filter_invalid_app_cons (l1 l2 : list VulkanSurface) s :
  IsValid s = true ->
  List.filter (fun x => negb (IsValid x)) (l1 ++ s :: l2)
  = List.filter (fun x => negb (IsValid x)) (l1 ++ l2).
Proof.
  intros Hs. rewrite !List.filter_app. cbn [List.filter].
  now rewrite Hs.
Qed.

(** X7: acquiring never takes an invalid surface out of the pool: the
    invalid surfaces cached before [GetCachedOrCreateSurface] or
    [AcquireSurface] are the invalid surfaces cached after it, in the same
    order, even when they have the requested size. *)
Theorem acquire_leaves_invalid_surfaces `{PoolEnv} size p :
  List.filter (fun x => negb (IsValid x))
              (available_surfaces_ (exec (GetCachedOrCreateSurface size) p))
  = List.filter (fun x => negb (IsValid x)) (available_surfaces_ p) /\
  List.filter (fun x => negb (IsValid x))
              (available_surfaces_ (exec (AcquireSurface size) p))
  = List.filter (fun x => negb (IsValid x)) (available_surfaces_ p).
Proof.
  rewrite AcquireSurface_exec.
  assert (Hget :
    List.filter (fun x => negb (IsValid x))
                (available_surfaces_ (exec (GetCachedOrCreateSurface size) p))
    = List.filter (fun x => negb (IsValid x)) (available_surfaces_ p)).
  { destruct (GetCachedOrCreateSurface_cases size p)
      as [(l1 & s & l2 & Hp & Hl1 & Hs)|Hall]; unfold exec.
    - rewrite (GetCachedOrCreateSurface_hit _ _ _ _ _ Hp Hl1 Hs), Hp.
      cbn [snd set_available available_surfaces_]. symmetry.
      apply filter_invalid_app_cons. eapply exact_match_valid; eauto.
    - rewrite (GetCachedOrCreateSurface_miss _ _ Hall).
      fold (exec (CreateSurface size) p).
      now rewrite CreateSurface_available. }
  split; exact Hget.
Qed.

(** X8: a surface that [GetCachedOrCreateSurface] or [AcquireSurface]
    returns has exactly the requested size, and it is either one of the
    surfaces that were cached or the surface just constructed with the
    pool's next identifier. *)
Theorem acquired_surface_origin `{PoolEnv} size p (s : VulkanSurface) :
  result (GetCachedOrCreateSurface size) p = Some s \/
  result (AcquireSurface size) p = Some s ->
  GetSize s = size /\
  (In s (available_surfaces_ p) \/
   s = make_VulkanSurface size (buffer_id_ p)).
Proof.
  intros Hres.
  assert (Hget : result (GetCachedOrCreateSurface size) p = Some s).
  { destruct Hres as [Hres|Hres]; [exact Hres|].
    unfold result in Hres. rewrite AcquireSurface_eq in Hres.
    cbn [fst] in Hres.
    destruct (result (GetCachedOrCreateSurface size) p) as [x|];
      [|discriminate].
    destruct (FlushSessionAcquireAndReleaseEvents x); [|discriminate].
    exact Hres. }
  clear Hres. unfold result in Hget.
  destruct (GetCachedOrCreateSurface_cases size p)
    as [(l1 & x & l2 & Hp & Hl1 & Hx)|Hall].
  - rewrite (GetCachedOrCreateSurface_hit _ _ _ _ _ Hp Hl1 Hx) in Hget.
    cbn [fst] in Hget. injection Hget as <-.
    split; [now apply exact_match_size|].
    left. rewrite Hp. apply in_or_app. right. now left.
  - rewrite (GetCachedOrCreateSurface_miss _ _ Hall), CreateSurface_eq in Hget.
    cbv zeta in Hget. destruct (IsValid _); cbn [fst] in Hget; [|discriminate].
    injection Hget as <-. split; [reflexivity|now right].
Qed.

Lemma acquired_surface_origin_witness :
  GetSize surface_a = size_a /\
  (In surface_a [surface_b; surface_a]
   \/ surface_a = @make_VulkanSurface sample_env size_a 7).
Proof.
  apply (@acquired_surface_origin sample_env size_a
           (pool_of [surface_b; surface_a]) surface_a).
  right. reflexivity.
Defined.

(** ** After the ageing passes *)

Lemma aged_valid s : IsValid (aged s) = IsValid s.
Proof. reflexivity. Qed.

Lemma survives_true `{PoolEnv} s :
  survives s = true <-> IsValid s = true /\ age_ s + 1 < kMaxSurfaceAge.
Proof. unfold survives. now rewrite andb_true_iff, Z.ltb_lt. Qed.

Lemma collect_old_available `{PoolEnv} p :
  available_surfaces_ (exec collect_old p)
  = map aged (List.filter survives (available_surfaces_ p)).
Proof. unfold collect_old. run. apply erase_remove_if_too_old. Qed.

Lemma collect_old_kept `{PoolEnv} p :
  Forall (fun s => IsValid s = true /\ age_ s < kMaxSurfaceAge)
         (available_surfaces_ (exec collect_old p)).
Proof.
  rewrite collect_old_available. apply List.Forall_forall. intros s Hin.
  apply in_map_iff in Hin as (x & <- & Hx).
  apply filter_In in Hx as [_ Hx]. apply survives_true in Hx.
  rewrite aged_valid. exact Hx.
Qed.

(** X9: when [AgeAndCollectOldBuffers] returns, every surface left in the
    pool is valid.  The survivors of the filtering pass are all valid with
    an age below [kMaxSurfaceAge]; the pool after the call is those
    survivors when none of them is oversized with a stable size history,
    and otherwise the survivors without the first such surface, followed by
    the surface constructed in its place with the pool's identifier when
    that surface is valid, and by nothing when it is not. *)
Theorem AgeAndCollectOldBuffers_leaves_valid `{PoolEnv} p :
  Forall (fun s => IsValid s = true)
         (available_surfaces_ (exec AgeAndCollectOldBuffers p)) /\
  Forall (fun s => IsValid s = true /\ age_ s < kMaxSurfaceAge)
         (available_surfaces_ (exec collect_old p)) /\
  ((Forall (fun y => ~ replaceable y)
           (available_surfaces_ (exec collect_old p)) /\
    available_surfaces_ (exec AgeAndCollectOldBuffers p)
      = available_surfaces_ (exec collect_old p)) \/
   (exists l1 x l2,
      available_surfaces_ (exec collect_old p) = l1 ++ x :: l2 /\
      Forall (fun y => ~ replaceable y) l1 /\
      replaceable x /\
      available_surfaces_ (exec AgeAndCollectOldBuffers p)
        = l1 ++ l2 ++
          List.filter IsValid
            [make_VulkanSurface (GetSize x) (buffer_id_ p)])).
Proof.
  pose proof (collect_old_kept p) as Hkept.
  rewrite AgeAndCollectOldBuffers_eq, TraceStats_exec.
  cbn [set_trace available_surfaces_].
  assert (Hid : buffer_id_ (exec collect_old p) = buffer_id_ p) by reflexivity.
  set (q := exec collect_old p) in *.
  destruct (find_if shrinkable (available_surfaces_ q)) as [i|] eqn:Hf.
  - apply find_if_Some in Hf as (l1 & x & l2 & Hl & _ & Hl1 & Hx).
    rewrite (replace_oversized_found _ l1 x l2 Hl Hl1 Hx). cbv zeta.
    rewrite Hid.
    assert (Hvalid : Forall (fun s => IsValid s = true) (l1 ++ l2)).
    { rewrite Hl in Hkept.
      apply Forall_app in Hkept as [Hk1 Hk2].
      apply Forall_cons_iff in Hk2 as [_ Hk2].
      apply Forall_app.
      split; [eapply Forall_impl; [exact Hk1|]|eapply Forall_impl; [exact Hk2|]];
        intros s Hs; apply Hs. }
    assert (Hfinal :
      available_surfaces_
        (if IsValid (make_VulkanSurface (GetSize x) (buffer_id_ p))
         then set_available
                (l1 ++ l2 ++ [make_VulkanSurface (GetSize x) (buffer_id_ p)])
                (set_trace (wrap_size_t (trace_surfaces_created_ q + 1))
                   (trace_surfaces_reused_ q)
                   (set_buffer_id (wrap_buffer_id (buffer_id_ p + 1))
                      (set_available (l1 ++ l2) q)))
         else set_buffer_id (wrap_buffer_id (buffer_id_ p + 1))
                (set_available (l1 ++ l2) q))
      = l1 ++ l2 ++
        List.filter IsValid [make_VulkanSurface (GetSize x) (buffer_id_ p)]).
    { cbn [List.filter].
      destruct (IsValid (make_VulkanSurface (GetSize x) (buffer_id_ p)));
        [reflexivity|].
      cbn [set_buffer_id set_available available_surfaces_].
      now rewrite app_nil_r. }
    rewrite Hfinal. split; [|split; [exact Hkept|]].
    + rewrite app_assoc. apply Forall_app. split; [exact Hvalid|].
      cbn [List.filter].
      destruct (IsValid (make_VulkanSurface (GetSize x) (buffer_id_ p)))
        eqn:Hnew; [|constructor].
      constructor; [exact Hnew|constructor].
    + right. exists l1, x, l2. split; [exact Hl|].
      split; [eapply Forall_impl; [exact Hl1|];
              intros y; apply shrinkable_false|].
      split; [now apply shrinkable_true|reflexivity].
  - apply find_if_None in Hf.
    assert (Hsame : exec replace_oversized q = q).
    { unfold exec. now rewrite (replace_oversized_none _ Hf). }
    rewrite Hsame.
    split; [eapply Forall_impl; [exact Hkept|]; intros s Hs; apply Hs|].
    split; [exact Hkept|].
    left. split; [|reflexivity].
    eapply Forall_impl; [exact Hf|]. intros y. apply shrinkable_false.
Qed.

Lemma AgeAndCollectOldBuffers_no_oversized `{PoolEnv} p :
  Forall (fun s => IsOversized s = false) (available_surfaces_ p) ->
  available_surfaces_ (exec AgeAndCollectOldBuffers p)
    = map aged (List.filter survives (available_surfaces_ p)) /\
  Forall (fun s => IsOversized s = false)
         (available_surfaces_ (exec AgeAndCollectOldBuffers p)).
Proof.
  intros Hnone.
  assert (Hq : Forall (fun s => IsOversized s = false)
                      (available_surfaces_ (exec collect_old p))).
  { rewrite collect_old_available. apply List.Forall_forall. intros s Hin.
    apply in_map_iff in Hin as (x & <- & Hx).
    apply filter_In in Hx as [Hx _].
    rewrite List.Forall_forall in Hnone. exact (Hnone x Hx). }
  assert (Hsame : exec replace_oversized (exec collect_old p)
                  = exec collect_old p).
  { unfold exec at 1. rewrite replace_oversized_none; [reflexivity|].
    eapply Forall_impl; [exact Hq|]. intros s Hs.
    unfold shrinkable. now rewrite Hs. }
  rewrite AgeAndCollectOldBuffers_eq, TraceStats_exec, Hsame.
  cbn [set_trace available_surfaces_].
  split; [apply collect_old_available|exact Hq].
Qed.

(** ** Repeated ageing *)

Lemma iter_aged_valid (n : nat) s : IsValid (Nat.iter n aged s) = IsValid s.
Proof.
  induction n as [|n IH]; [reflexivity|].
  now rewrite Nat.iter_succ, aged_valid.
Qed.

Lemma iter_aged_age (n : nat) s :
  age_ (Nat.iter n aged s) = age_ s + Z.of_nat n.
Proof.
  induction n as [|n IH]; [simpl; lia|].
  rewrite Nat.iter_succ. change (age_ (aged ?x)) with (age_ x + 1).
  rewrite IH. lia.
Qed.

Lemma filter_map_comm {A B} (f : B -> bool) (g : A -> B) (l : list A) :
  List.filter f (map g l) = map g (List.filter (fun x => f (g x)) l).
Proof.
  induction l as [|x l IH]; [reflexivity|].
  simpl. destruct (f (g x)); simpl; now rewrite IH.
Qed.

Lemma filter_filter_and {A} (f g : A -> bool) (l : list A) :
  List.filter f (List.filter g l) = List.filter (fun x => g x && f x) l.
Proof.
  induction l as [|x l IH]; [reflexivity|].
  simpl. destruct (g x); simpl; [destruct (f x)|]; now rewrite IH.
Qed.

Lemma age_and_collect_calls_available `{PoolEnv} (n : nat) p :
  Forall (fun s => IsOversized s = false) (available_surfaces_ p) ->
  available_surfaces_ (age_and_collect_calls (S n) p)
  = map (Nat.iter (S n) aged)
        (List.filter
           (fun s => IsValid s && (age_ s + Z.of_nat (S n) <? kMaxSurfaceAge))
           (available_surfaces_ p)) /\
  Forall (fun s => IsOversized s = false)
         (available_surfaces_ (age_and_collect_calls (S n) p)).
Proof.
  intros Hnone. induction n as [|n [IH IHnone]].
  - unfold age_and_collect_calls. rewrite Nat.iter_succ. cbn [Nat.iter].
    exact (AgeAndCollectOldBuffers_no_oversized p Hnone).
  - unfold age_and_collect_calls in *.
    rewrite (Nat.iter_succ (S n)).
    destruct (AgeAndCollectOldBuffers_no_oversized _ IHnone) as [Hcall Hkeep].
    split; [|exact Hkeep].
    rewrite Hcall, IH, filter_map_comm, map_map.
    rewrite filter_filter_and.
    rewrite (map_ext (fun x => aged (Nat.iter (S n) aged x))
                     (Nat.iter (S (S n)) aged))
      by (intros x; now rewrite (Nat.iter_succ (S n))).
    f_equal.
    apply filter_ext. intros s. unfold survives.
    rewrite iter_aged_valid, iter_aged_age.
    destruct (IsValid s); cbn [andb]; [|reflexivity].
    destruct (Z.ltb_spec (age_ s + Z.of_nat (S n)) kMaxSurfaceAge);
      destruct (Z.ltb_spec (age_ s + Z.of_nat (S n) + 1) kMaxSurfaceAge);
      destruct (Z.ltb_spec (age_ s + Z.of_nat (S (S n))) kMaxSurfaceAge);
      try reflexivity; lia.
Qed.

(** X10: on a pool in which no surface is oversized, [n >= 1] calls of
    [AgeAndCollectOldBuffers] in a row leave exactly the surfaces that were
    valid and whose age plus [n] is still below [kMaxSurfaceAge], in their
    order, each aged by [n]; so such a pool, with every surface within [n]
    units of the threshold, is empty after [n] calls. *)
Theorem ageing_passes `{PoolEnv} (n : nat) p :
  (0 < n)%nat ->
  Forall (fun s => IsOversized s = false) (available_surfaces_ p) ->
  available_surfaces_ (age_and_collect_calls n p)
  = map (Nat.iter n aged)
        (List.filter
           (fun s => IsValid s && (age_ s + Z.of_nat n <? kMaxSurfaceAge))
           (available_surfaces_ p)) /\
  (Forall (fun s => kMaxSurfaceAge <= age_ s + Z.of_nat n)
          (available_surfaces_ p) ->
   available_surfaces_ (age_and_collect_calls n p) = []).
Proof.
  intros Hn Hnone. destruct n as [|n]; [lia|]. clear Hn.
  destruct (age_and_collect_calls_available n p Hnone) as [Hpass _].
  split; [exact Hpass|].
  intros Hold. rewrite Hpass. clear Hpass Hnone.
  replace (List.filter _ (available_surfaces_ p)) with (@nil VulkanSurface);
    [reflexivity|].
  symmetry. induction Hold as [|s l Hs _ IH]; [reflexivity|].
  cbn [List.filter]. apply Z.ltb_ge in Hs. rewrite Hs, andb_false_r.
  exact IH.
Qed.

Lemma ageing_passes_witness :
  available_surfaces_
    (@age_and_collect_calls sample_env 2
       (pool_of [surface_a; surface_unflushed; surface_dead]))
  = [aged (aged surface_a); aged (aged surface_unflushed)] /\
  available_surfaces_
    (@age_and_collect_calls sample_env 3
       (pool_of [surface_a; surface_unflushed; surface_dead]))
  = [].
Proof.
  destruct (@ageing_passes sample_env 2
              (pool_of [surface_a; surface_unflushed; surface_dead]))
    as [Hpass _]; [lia|repeat constructor|].
  destruct (@ageing_passes sample_env 3
              (pool_of [surface_a; surface_unflushed; surface_dead]))
    as [_ Hempty]; [lia|repeat constructor|].
  split.
  - rewrite Hpass. reflexivity.
  - apply Hempty. repeat constructor; discriminate.
Defined.

(** ** Shrinking a pool *)

Lemma filter_none (l : list VulkanSurface) :
  Forall (fun s => IsOversized s = false) l ->
  List.filter IsOversized l = [] /\
  List.filter (fun s => negb (IsOversized s)) l = l.
Proof.
  induction 1 as [|s l Hs _ [IH1 IH2]]; [split; reflexivity|].
  cbn [List.filter]. rewrite Hs. cbn [negb]. rewrite IH1, IH2.
  split; reflexivity.
Qed.

(** X11: on a pool without an oversized surface (the empty pool is one)
    [ShrinkToFit] destroys nothing and creates nothing, not even an
    identifier is used: all it does is reset the two counters.  Invalid
    surfaces that are not oversized stay cached. *)
Theorem ShrinkToFit_nothing_oversized `{PoolEnv} p :
  Forall (fun s => IsOversized s = false) (available_surfaces_ p) ->
  exec ShrinkToFit p = set_trace 0 0 p.
Proof.
  intros Hnone. apply filter_none in Hnone as [Hover Hkept].
  rewrite ShrinkToFit_eq, Hover, Hkept. now destruct p.
Qed.

Lemma ShrinkToFit_nothing_oversized_witness :
  exec (@ShrinkToFit sample_env) (pool_of [surface_a; surface_dead])
  = mkPool [surface_a; surface_dead] ∅ 7 0 0 [].
Proof.
  apply (@ShrinkToFit_nothing_oversized sample_env
           (pool_of [surface_a; surface_dead])).
  repeat constructor.
Defined.

Lemma recreate_buffer_id `{PoolEnv} sizes : forall p,
  buffer_id_ (exec (recreate sizes) p)
  = advance_buffer_id (length sizes) (buffer_id_ p).
Proof.
  induction sizes as [|size sizes IH]; intros p; [reflexivity|].
  rewrite recreate_cons, IH. unfold result, exec.
  rewrite CreateSurface_eq. cbv zeta.
  unfold advance_buffer_id. cbn [length].
  rewrite Nat.iter_succ_r.
  destruct (IsValid _); reflexivity.
Qed.

Lemma advance_buffer_id_mod `{PoolEnv} (n : nat) id :
  0 < buffer_id_modulus -> (0 < n)%nat ->
  advance_buffer_id n id = (id + Z.of_nat n) mod buffer_id_modulus.
Proof.
  intros Hmod Hn. destruct n as [|n]; [lia|]. clear Hn.
  unfold advance_buffer_id.
  induction n as [|n IH]; [reflexivity|].
  rewrite Nat.iter_succ, IH. unfold wrap_buffer_id.
  rewrite Zplus_mod_idemp_l. f_equal. lia.
Qed.

(** X12: [ShrinkToFit] constructs exactly one surface for each oversized
    surface of the pool, valid or not, whether the construction succeeds or
    not: the identifier counter moves on by the number of oversized
    surfaces, wrapping around at the size of its type. *)
Theorem ShrinkToFit_identifiers `{PoolEnv} p :
  buffer_id_ (exec ShrinkToFit p)
  = advance_buffer_id
      (length (List.filter IsOversized (available_surfaces_ p)))
      (buffer_id_ p) /\
  (0 < buffer_id_modulus ->
   (0 < length (List.filter IsOversized (available_surfaces_ p)))%nat ->
   buffer_id_ (exec ShrinkToFit p)
   = (buffer_id_ p
      + Z.of_nat (length (List.filter IsOversized (available_surfaces_ p))))
     mod buffer_id_modulus).
Proof.
  assert (Hid : buffer_id_ (exec ShrinkToFit p)
    = advance_buffer_id
        (length (List.filter IsOversized (available_surfaces_ p)))
        (buffer_id_ p)).
  { rewrite ShrinkToFit_eq, TraceStats_exec.
    cbn [set_trace buffer_id_].
    now rewrite recreate_buffer_id, length_map. }
  split; [exact Hid|].
  intros Hmod Hsome. rewrite Hid. now apply advance_buffer_id_mod.
Qed.

Lemma ShrinkToFit_identifiers_witness :
  buffer_id_ (exec (@ShrinkToFit failing_env)
                   (pool_of [surface_b; surface_a; surface_c])) = 9.
Proof.
  destruct (@ShrinkToFit_identifiers failing_env
              (pool_of [surface_b; surface_a; surface_c])) as [_ Hmod].
  rewrite Hmod.
  - reflexivity.
  - reflexivity.
  - simpl. lia.
Defined.

(** ** Invariants along runs of operations *)

Lemma run_op_capacity_step `{PoolEnv} (o : operation) p :
  within_capacity p -> within_capacity (run_op o p).
Proof.
  unfold within_capacity. intros Hcap.
  destruct o as [size|size|size|o|key|s| | |]; cbn [run_op].
  - rewrite AcquireSurface_exec.
    pose proof (GetCachedOrCreateSurface_length size p). lia.
  - pose proof (GetCachedOrCreateSurface_length size p). lia.
  - now rewrite CreateSurface_available.
  - destruct o as [s|]; [|exact Hcap].
    unfold exec. rewrite SubmitSurface_eq. cbn [snd].
    destruct (pending_surfaces_ p !! self s); exact Hcap.
  - unfold exec. rewrite RecyclePendingSurface_eq.
    destruct (pending_surfaces_ p !! key) as [s|]; [|exact Hcap].
    apply (RecycleSurface_within_capacity s
             (set_pending (delete key (pending_surfaces_ p)) p)).
    exact Hcap.
  - now apply RecycleSurface_within_capacity.
  - pose proof (AgeAndCollectOldBuffers_length p). lia.
  - pose proof (ShrinkToFit_length p). lia.
  - exact Hcap.
Qed.

(** X13: the capacity bound holds along every run of operations: from a
    pool within [kMaxSurfaces] no sequence of operations leads to a pool
    above it, and when [kMaxSurfaces] is not negative every pool reached
    from a new pool is within it. *)
Theorem capacity_along_runs `{PoolEnv} (os : list operation) :
  (forall p, within_capacity p -> within_capacity (run_ops os p)) /\
  (0 <= kMaxSurfaces -> within_capacity (run_ops os empty_pool)).
Proof.
  assert (Hrun : forall p, within_capacity p -> within_capacity (run_ops os p)).
  { unfold run_ops. induction os as [|o os IH]; intros p Hp; [exact Hp|].
    cbn [fold_left]. apply IH. now apply run_op_capacity_step. }
  split; [exact Hrun|]. intros Hpos. apply Hrun. exact Hpos.
Qed.

Lemma capacity_along_runs_witness :
  @within_capacity tiny_env
    (@run_ops tiny_env
       [OpSubmitSurface (Some surface_a); OpSubmitSurface (Some surface_b);
        OpRecyclePendingSurface 4096; OpRecyclePendingSurface 8192]
       empty_pool).
Proof.
  destruct (@capacity_along_runs tiny_env
    [OpSubmitSurface (Some surface_a); OpSubmitSurface (Some surface_b);
     OpRecyclePendingSurface 4096; OpRecyclePendingSurface 8192])
    as [_ Hnew].
  apply Hnew. simpl. lia.
Defined.

Lemma run_op_well_keyed_step `{PoolEnv} (o : operation) p :
  pending_well_keyed p -> pending_well_keyed (run_op o p).
Proof.
  intros Hp.
  assert (Hframe : forall q, submitted q = submitted p -> pending_well_keyed q).
  { intros q Hq key s. unfold submitted in Hq.
    injection Hq as -> ->. apply Hp. }
  destruct (touches_pending o) eqn:Ho.
  - destruct o as [size|size|size|o|key|s| | |]; try discriminate Ho;
      cbn [run_op].
    + destruct o as [s|]; [|exact Hp].
      unfold exec. rewrite SubmitSurface_eq. cbn [snd].
      destruct (pending_surfaces_ p !! self s) eqn:Hs; [exact Hp|].
      intros key x. cbn [add_writes_finished set_pending pending_surfaces_
                         writes_finished_].
      destruct (decide (self s = key)) as [<-|Hne].
      * rewrite lookup_insert_eq. intros [= <-].
        split; [reflexivity|]. apply in_or_app. right. now left.
      * rewrite lookup_insert_ne by exact Hne. intros Hx.
        destruct (Hp key x Hx) as [Hself Hin].
        split; [exact Hself|]. apply in_or_app. now left.
    + unfold exec. rewrite RecyclePendingSurface_eq.
      destruct (pending_surfaces_ p !! key) as [s|] eqn:Hs; [|exact Hp].
      fold (exec (RecycleSurface s)
                 (set_pending (delete key (pending_surfaces_ p)) p)).
      intros key' x.
      pose proof (RecycleSurface_submitted s
        (set_pending (delete key (pending_surfaces_ p)) p)) as Hsub.
      unfold submitted in Hsub. injection Hsub as -> ->.
      cbn [set_pending pending_surfaces_ writes_finished_].
      intros Hx. apply lookup_delete_Some in Hx as [_ Hx]. now apply Hp.
  - apply Hframe. now apply run_op_submitted.
Qed.

(** X14: in every pool reached from a new pool, each pending surface is
    stored under its own address and a writes-finished callback bound to
    that key has been registered for it; every operation keeps this so. *)
Theorem pending_well_keyed_along_runs `{PoolEnv} (os : list operation) :
  (forall p, pending_well_keyed p -> pending_well_keyed (run_ops os p)) /\
  pending_well_keyed (run_ops os empty_pool).
Proof.
  assert (Hrun : forall p, pending_well_keyed p ->
                           pending_well_keyed (run_ops os p)).
  { unfold run_ops. induction os as [|o os IH]; intros p Hp; [exact Hp|].
    cbn [fold_left]. apply IH. now apply run_op_well_keyed_step. }
  split; [exact Hrun|]. apply Hrun.
  intros key s Hs. unfold empty_pool in Hs. cbn [pending_surfaces_] in Hs.
  rewrite lookup_empty in Hs. discriminate Hs.
Qed.

Lemma pending_well_keyed_along_runs_witness :
  pending_well_keyed
    (@run_ops sample_env [OpShrinkToFit; OpSubmitSurface (Some surface_c)]
              pool_with_pending).
Proof.
  destruct (@pending_well_keyed_along_runs sample_env
              [OpShrinkToFit; OpSubmitSurface (Some surface_c)]) as [Hrun _].
  apply Hrun. intros key s Hs.
  unfold pool_with_pending in Hs. cbn [pending_surfaces_] in Hs.
  apply lookup_singleton_Some in Hs as [<- <-].
  split; [reflexivity|]. now left.
Defined.

(** ** A surface through one frame *)



(** ** When acquiring fails *)

(** X16: [AcquireSurface] returns null in exactly two cases: the surface
    obtained from the cache or from [CreateSurface] could not flush its
    session events, or no cached surface matched and the surface that was
    constructed is invalid. *)
Theorem AcquireSurface_fails_iff `{PoolEnv} size p :
  result (AcquireSurface size) p = None <->
  (exists s, result (GetCachedOrCreateSurface size) p = Some s /\
             FlushSessionAcquireAndReleaseEvents s = false) \/
  (Forall (fun x => ~ matches size x) (available_surfaces_ p) /\
   IsValid (make_VulkanSurface size (buffer_id_ p)) = false).
Proof.
  unfold result at 1. rewrite AcquireSurface_eq. cbn [fst].
  destruct (result (GetCachedOrCreateSurface size) p) as [x|] eqn:Hx.
  - split.
    + intros Hnone. left. exists x. split; [reflexivity|].
      destruct (FlushSessionAcquireAndReleaseEvents x);
        [discriminate|reflexivity].
    + intros [(s & [= <-] & Hflush)|[Hall Hnew]].
      * now rewrite Hflush.
      * exfalso. apply Forall_exact_match_false in Hall.
        unfold result in Hx.
        rewrite (GetCachedOrCreateSurface_miss _ _ Hall), CreateSurface_eq in Hx.
        cbv zeta in Hx. rewrite Hnew in Hx. discriminate Hx.
  - split; [|reflexivity]. intros _. right.
    destruct (GetCachedOrCreateSurface_cases size p)
      as [(l1 & s & l2 & Hp & Hl1 & Hs)|Hall]; unfold result in Hx.
    + rewrite (GetCachedOrCreateSurface_hit _ _ _ _ _ Hp Hl1 Hs) in Hx.
      discriminate Hx.
    + rewrite (GetCachedOrCreateSurface_miss _ _ Hall), CreateSurface_eq in Hx.
      cbv zeta in Hx. split.
      * eapply Forall_impl; [exact Hall|]. intros y. apply exact_match_false.
      * destruct (IsValid _); [discriminate Hx|reflexivity].
Qed.

Lemma AcquireSurface_fails_iff_witness :
  result (@AcquireSurface failing_env size_a) (pool_of [surface_b]) = None /\
  result (@AcquireSurface sample_env size_a) (pool_of [surface_unflushed])
    = None.
Proof.
  split.
  - apply (@AcquireSurface_fails_iff failing_env size_a (pool_of [surface_b])).
    right. split; [|reflexivity].
    constructor; [|constructor]. intros [_ Hsize]. discriminate Hsize.
  - apply (@AcquireSurface_fails_iff sample_env size_a
             (pool_of [surface_unflushed])).
    left. exists surface_unflushed. split; reflexivity.
Defined.
